(** * timer.py: duration parser, countdown loop and completion notifier

    A shallow embedding of [src/timer.py].

    Conventions of the embedding.
    - A Python [str] is a Rocq [string] whose characters are the code points
      0..255.  On that range the regular-expression class [\d] is exactly
      ['0'..'9'].
    - A Python [int] is unbounded and is a [Z].
    - [time.time()] values are exact rationals ([Q]); binary64 rounding and
      range are not part of the model.
    - The program talks to its environment (clock, [time.sleep],
      [subprocess.run]) through an oracle, and everything it writes or
      launches is recorded in a trace of events.
    - A KeyboardInterrupt arrives, if at all, during one of the two
      blocking calls, [time.sleep] and [subprocess.run]; writing to the
      standard output always succeeds.
    - [main] starts after [argparse] has bound [args.duration]. *)

From Stdlib Require Import ZArith QArith Qround Lia Lqa List Sorted Bool.
From Stdlib Require Import Strings.Ascii Strings.String.
Import ListNotations.

Open Scope string_scope.
Open Scope Z_scope.

(* ------------------------------------------------------------------ *)
(** ** Characters and decimal text *)

Module Text.

(** The regex class [\d] on code points below 256. *)
Definition is_digit (c : ascii) : bool :=
  let n := nat_of_ascii c in (48 <=? n)%nat && (n <=? 57)%nat.

Definition digit_value (c : ascii) : Z := Z.of_nat (nat_of_ascii c) - 48.

Definition digit_char (d : Z) : ascii := ascii_of_nat (Z.to_nat (48 + d)).

(** [str.isdigit]-style test used only in statements: every character is a
    decimal digit. *)
Fixpoint all_digits (s : string) : bool :=
  match s with
  | EmptyString => true
  | String c s' => is_digit c && all_digits s'
  end.

(** Python's [int(text)] on a string of decimal digits (the only strings
    [parse_time] ever passes to it, see [Regex.time_regex]). *)
Fixpoint int_acc (acc : Z) (s : string) : Z :=
  match s with
  | EmptyString => acc
  | String c s' => int_acc (acc * 10 + digit_value c) s'
  end.

Definition int (s : string) : Z := int_acc 0 s.

(** Python's [str(n)] for [n >= 0]: the decimal digits, most significant
    first, no leading zero. *)
Fixpoint str_acc (fuel : nat) (n : Z) (acc : string) : string :=
  let acc' := String (digit_char (n mod 10)) acc in
  match fuel with
  | O => acc'
  | S fuel' => if n <? 10 then acc' else str_acc fuel' (n / 10) acc'
  end.

Definition str_nonneg (n : Z) : string :=
  str_acc (Z.to_nat (Z.log2 n)) n "".

(** Python's [str(n)] / [f"{n}"] for any integer. *)
Definition str (n : Z) : string :=
  if n <? 0 then "-" ++ str_nonneg (- n) else str_nonneg n.

(** Python's [f"{n:02d}"]: sign, then the digits padded with zeros on the
    left to a minimum total width of two. *)
Definition format_02d (n : Z) : string :=
  if n <? 0 then "-" ++ str_nonneg (- n)
  else if n <? 10 then "0" ++ str_nonneg n
  else str_nonneg n.

(** [needle in haystack]. *)
Definition occurs_in (needle haystack : string) : Prop :=
  exists pre post, haystack = pre ++ needle ++ post.

End Text.

(* ------------------------------------------------------------------ *)
(** ** The regular expression of [parse_time] and Python's [re.match] *)

Module Regex.
Import Text.

(** The fragment of Python's [re] syntax that [parse_time] uses. *)
Inductive regex : Type :=
| Bol                                  (* ^ *)
| Eol                                  (* $ *)
| Lit (c : ascii)                      (* a literal character *)
| Digits1                              (* \d+, greedy *)
| Cat (r1 r2 : regex)                  (* r1 r2 *)
| Opt (r : regex)                      (* (r)?, greedy *)
| Named (name : string) (r : regex).   (* (?P<name>r) *)

(** [match.groupdict()]: the named groups that took part in the match. *)
Definition groups := list (string * string).

Fixpoint group (name : string) (g : groups) : option string :=
  match g with
  | [] => None
  | (n, v) :: g' => if String.eqb n name then Some v else group name g'
  end.

Section Matcher.
Context {A : Type}.

(** A continuation receives the position reached, the text still to be
    read and the groups captured so far. *)
Definition cont := nat -> string -> groups -> option A.

(** [\d*] after the first digit: take as many digits as possible, give
    one back at a time when the rest of the pattern fails. *)
Fixpoint digits_star (pos : nat) (rest : string) (g : groups) (k : cont)
  : option A :=
  match rest with
  | String c rest' =>
      if is_digit c then
        match digits_star (S pos) rest' g k with
        | Some a => Some a
        | None => k pos rest g
        end
      else k pos rest g
  | EmptyString => k pos rest g
  end.

(** Backtracking matcher, by recursion on the pattern. *)
Fixpoint run (r : regex) (pos : nat) (rest : string) (g : groups) (k : cont)
  : option A :=
  match r with
  | Bol => if (pos =? 0)%nat then k pos rest g else None
  | Eol =>
      (* end of the string, or just before a newline that ends it *)
      match rest with
      | EmptyString => k pos rest g
      | String c EmptyString =>
          if Ascii.eqb c "010" then k pos rest g else None
      | _ => None
      end
  | Lit c =>
      match rest with
      | String c' rest' => if Ascii.eqb c' c then k (S pos) rest' g else None
      | EmptyString => None
      end
  | Digits1 =>
      match rest with
      | String c rest' =>
          if is_digit c then digits_star (S pos) rest' g k else None
      | EmptyString => None
      end
  | Cat r1 r2 =>
      run r1 pos rest g (fun pos' rest' g' => run r2 pos' rest' g' k)
  | Opt r' =>
      match run r' pos rest g k with
      | Some a => Some a
      | None => k pos rest g
      end
  | Named name r' =>
      run r' pos rest g
        (fun pos' rest' g' =>
           k pos' rest' ((name, substring 0 (pos' - pos) rest) :: g'))
  end.
End Matcher.

(** What a successful [re.match] exposes: [group(0)] and [groupdict()]. *)
Record match_object : Type := { group0 : string; groupdict : groups }.

(** [re.match(r, s)]: match at the start of [s]. *)
Definition re_match (r : regex) (s : string) : option match_object :=
  run r 0 s []
    (fun pos _ g => Some {| group0 := substring 0 pos s; groupdict := g |}).

(** One optional part, [((?P<name>\d+)u)?]; the outer parentheses only
    group. *)
Definition part (name : string) (u : ascii) : regex :=
  Opt (Cat (Named name Digits1) (Lit u)).

(** [r'^((?P<hours>\d+)h)?((?P<minutes>\d+)m)?((?P<seconds>\d+)s)?$'] *)
Definition time_regex : regex :=
  Cat Bol
    (Cat (part "hours" "h")
       (Cat (part "minutes" "m")
          (Cat (part "seconds" "s") Eol))).

End Regex.

(* ------------------------------------------------------------------ *)
(** ** [parse_time] *)

Inductive result (A : Type) : Type :=
| Ok (a : A)
| ValueError (message : string).
Arguments Ok {A} a.
Arguments ValueError {A} message.

Definition msg_bad_format (time_str : string) : string :=
  "Invalid time format: '" ++ time_str
  ++ "'. Use formats like '1h30m', '90m', '180s'.".

Definition msg_no_units (time_str : string) : string :=
  "Invalid time format: '" ++ time_str
  ++ "'. No time units (h, m, s) found.".

Definition msg_not_positive : string := "Total duration must be positive.".

(** [int(time_parts.get(name) or 0)] *)
Definition int_or_zero (v : option string) : Z :=
  match v with
  | Some (String c s) => Text.int (String c s)
  | Some EmptyString => 0
  | None => 0
  end.

Definition parse_time (time_str : string) : result Z :=
  match Regex.re_match Regex.time_regex time_str with
  | None => ValueError (msg_bad_format time_str)
  | Some m =>
      if String.eqb (Regex.group0 m) "" then
        ValueError (msg_bad_format time_str)
      else
        let time_parts := Regex.groupdict m in
        let total_seconds := 0 in
        let hours := int_or_zero (Regex.group "hours" time_parts) in
        let minutes := int_or_zero (Regex.group "minutes" time_parts) in
        let seconds := int_or_zero (Regex.group "seconds" time_parts) in
        let total_seconds := total_seconds + hours * 3600 in
        let total_seconds := total_seconds + minutes * 60 in
        let total_seconds := total_seconds + seconds in
        if total_seconds <=? 0 then
          if (hours =? 0) && (minutes =? 0) && (seconds =? 0) then
            ValueError (msg_no_units time_str)
          else ValueError msg_not_positive
        else Ok total_seconds
  end.

(* ------------------------------------------------------------------ *)
(** ** The environment: clock, sleep, subprocess, standard output *)

Definition LF : ascii := "010"%char.
Definition CR : ascii := "013"%char.
Definition nl : string := String LF "".
Definition cr : string := String CR "".

(** Everything the program does to the outside world, in order. *)
Inductive event : Type :=
| Print (text end_ : string)      (* print(text, end=end_) *)
| Flush                           (* sys.stdout.flush() *)
| Sleep (secs : Z)                (* time.sleep(secs) is entered *)
| RunStart (argv : list string)   (* subprocess.run(argv, ...) is entered *)
| RunEnd                          (* that call is over: returned or raised *)
| PrintUsage.                     (* parser.print_usage() *)

(** The exception classes the program distinguishes. *)
Inductive exception : Type :=
| ExValueError (msg : string)
| ExUnicodeDecodeError (msg : string)    (* a subclass of ValueError *)
| ExKeyboardInterrupt                    (* not a subclass of Exception *)
| ExSystemExit (code : Z)                (* not a subclass of Exception *)
| ExOther (msg : string).                (* any other subclass of Exception *)

(** How a piece of Python code ends. *)
Inductive completion (A : Type) : Type :=
| Return (a : A)
| Raise (e : exception)
| OutOfFuel.
Arguments Return {A} a.
Arguments Raise {A} e.
Arguments OutOfFuel {A}.

(** [e.stderr.decode()]: the captured bytes as text, unless they are not
    valid UTF-8, in which case [bytes.decode] raises [UnicodeDecodeError]
    with the given message. *)
Inductive decoded : Type :=
| Utf8 (text : string)
| NotUtf8 (msg : string).

(** What one [subprocess.run([...], check=True, capture_output=True)] does. *)
Inductive run_outcome : Type :=
| Completed                                       (* exit status 0 *)
| FileNotFound                                    (* FileNotFoundError *)
| CalledProcessError (returncode : Z) (e_str : string) (stderr : decoded)
                                                  (* non-zero exit status *)
| Interrupted                                     (* KeyboardInterrupt *)
| Failed (e_str : string).                        (* any other Exception *)

(** The environment of one process run. *)
Record oracle : Type := {
  (** the clock when [countdown] is entered *)
  start_time : Q;
  (** the k-th [time.sleep(d)]: [None] when a KeyboardInterrupt arrives
      during it, [Some extra] when it returns after [d + extra] seconds *)
  sleep_result : nat -> option Q;
  (** the i-th [subprocess.run] *)
  run_result : nat -> run_outcome
}.

(** [time.sleep] suspends for at least the time asked. *)
Definition sleeps_long_enough (E : oracle) : Prop :=
  forall k extra, sleep_result E k = Some extra -> (0 <= extra)%Q.

(** No KeyboardInterrupt arrives during any sleep. *)
Definition uninterrupted (E : oracle) : Prop :=
  forall k, sleep_result E k <> None.

(** Python's [round(x)] of a float: nearest integer, ties to even. *)
Definition py_round (x : Q) : Z :=
  let f := Qfloor x in
  match Qcompare (x - inject_Z f) (1 # 2) with
  | Lt => f
  | Gt => f + 1
  | Eq => if Z.even f then f else f + 1
  end.

(** [str.strip()] on code points below 256. *)
Definition is_space (c : ascii) : bool :=
  let n := nat_of_ascii c in
  ((9 <=? n) && (n <=? 13) || (28 <=? n) && (n <=? 32)
   || (n =? 133) || (n =? 160))%nat.

Fixpoint lstrip (s : string) : string :=
  match s with
  | String c s' => if is_space c then lstrip s' else s
  | EmptyString => s
  end.

Fixpoint rstrip (s : string) : string :=
  match s with
  | String c s' =>
      match rstrip s' with
      | EmptyString => if is_space c then "" else String c ""
      | t => String c t
      end
  | EmptyString => s
  end.

Definition strip (s : string) : string := rstrip (lstrip s).

(* ------------------------------------------------------------------ *)
(** ** [countdown] *)

(** [f"{hours_rem:02d}:{mins_rem:02d}:{secs_rem:02d}"] *)
Definition time_str (remaining : Z) : string :=
  let hours_rem := remaining / 3600 in
  let mins_rem := (remaining mod 3600) / 60 in
  let secs_rem := remaining mod 60 in
  Text.format_02d hours_rem ++ ":" ++ Text.format_02d mins_rem
  ++ ":" ++ Text.format_02d secs_rem.

(** What one pass of the loop does when time remains: print the time over
    the previous one, flush, sleep [min(1, remaining)]. *)
Definition tick_events (remaining : Z) : list event :=
  [Print ("Time remaining: " ++ time_str remaining) cr; Flush;
   Sleep (Z.min 1 remaining)].

(** The [while True] loop; [now] is the clock and [k] the number of sleeps
    done so far. *)
Fixpoint countdown_loop (fuel : nat) (E : oracle) (end_time now : Q) (k : nat)
  : list event * completion unit :=
  match fuel with
  | O => ([], OutOfFuel)
  | S fuel' =>
      let remaining := py_round (end_time - now) in
      if remaining <=? 0 then
        ([Print (String LF "Time's up!") nl], Return tt)
      else
        let d := Z.min 1 remaining in
        match sleep_result E k with
        | None => (tick_events remaining, Raise ExKeyboardInterrupt)
        | Some extra =>
            let '(evs, c) :=
              countdown_loop fuel' E end_time (now + inject_Z d + extra) (S k)
            in ((tick_events remaining ++ evs)%list, c)
        end
  end.

Definition countdown (fuel : nat) (E : oracle) (seconds : Z)
  : list event * completion unit :=
  let end_time := (start_time E + inject_Z seconds)%Q in
  let header := Print ("Timer set for " ++ Text.str seconds ++ " seconds.") nl in
  match countdown_loop fuel E end_time (start_time E) 0 with
  | (evs, Raise ExKeyboardInterrupt) =>
      ((header :: evs ++ [Print (String LF "Timer cancelled by user.") nl])%list,
       Raise (ExSystemExit 0))
  | (evs, c) => (header :: evs, c)
  end.

(* ------------------------------------------------------------------ *)
(** ** [play_sound_macos] *)

Definition sound_file : string := "/System/Library/Sounds/Ping.aiff".
Definition afplay : list string := ["afplay"; sound_file].

Definition iteration (i : nat) : string := Text.str (Z.of_nat (S i)).

(** The [for i in range(repeat_count)] loop from iteration [i] on, with
    [todo] iterations left.  [break] ends it with [Return]. *)
Fixpoint play_loop (E : oracle) (i todo : nat) : list event * completion unit :=
  match todo with
  | O => ([], Return tt)
  | S todo' =>
      match run_result E i with
      | Completed =>
          let '(evs, c) := play_loop E (S i) todo' in
          (RunStart afplay :: RunEnd :: evs, c)
      | FileNotFound =>
          ([RunStart afplay; RunEnd;
            Print "Error: 'afplay' command not found. Is this a macOS system?" nl],
           Return tt)
      | CalledProcessError _ e_str stderr =>
          let report :=
            Print ("Error playing sound (iteration " ++ iteration i ++ "): "
                   ++ e_str) nl in
          match stderr with
          | Utf8 text =>
              ([RunStart afplay; RunEnd; report;
                Print ("Stderr: " ++ strip text) nl],
               Return tt)
          | NotUtf8 msg =>
              (* raised inside the handler: no sibling handler applies *)
              ([RunStart afplay; RunEnd; report],
               Raise (ExUnicodeDecodeError msg))
          end
      | Interrupted =>
          ([RunStart afplay; RunEnd;
            Print (String LF "Sound playback interrupted by user.") nl],
           Raise (ExSystemExit 0))
      | Failed e_str =>
          ([RunStart afplay; RunEnd;
            Print ("An unexpected error occurred during sound playback (iteration "
                   ++ iteration i ++ "): " ++ e_str) nl],
           Return tt)
      end
  end.

Definition play_sound_macos (E : oracle) (repeat_count : Z)
  : list event * completion unit :=
  let header :=
    Print ("Playing sound '" ++ sound_file ++ "' " ++ Text.str repeat_count
           ++ " times.") nl in
  match play_loop E 0 (Z.to_nat repeat_count) with
  | (evs, Return _) =>
      ((header :: evs ++ [Print "Finished playing sound." nl])%list, Return tt)
  | (evs, c) => (header :: evs, c)
  end.

(* ------------------------------------------------------------------ *)
(** ** The script body *)

(** The [try] block of [__main__]. *)
Definition main_body (fuel : nat) (E : oracle) (duration : string)
  : list event * completion unit :=
  match parse_time duration with
  | ValueError msg => ([], Raise (ExValueError msg))
  | Ok total_seconds =>
      match countdown fuel E total_seconds with
      | (evs, Return _) =>
          let '(evs', c) := play_sound_macos E 10 in ((evs ++ evs')%list, c)
      | (evs, c) => (evs, c)
      end
  end.

(** How the process ends: its exit status, or the model ran out of fuel. *)
Inductive ending : Type :=
| Exit (status : Z)
| Unfinished.

(** The [except] clauses of [__main__] and the interpreter's exit: what is
    printed on the way out and the exit status. *)
Definition except_clauses (c : completion unit) : list event * ending :=
  match c with
  | Return _ => ([], Exit 0)
  | Raise (ExValueError msg)
  | Raise (ExUnicodeDecodeError msg) =>
      ([Print ("Error: " ++ msg) nl; PrintUsage], Exit 1)
  | Raise ExKeyboardInterrupt =>
      ([Print (String LF "Timer script interrupted by user.") nl], Exit 0)
  | Raise (ExOther msg) =>
      ([Print ("An unexpected error occurred: " ++ msg) nl], Exit 1)
  | Raise (ExSystemExit code) => ([], Exit code)
  | OutOfFuel => ([], Unfinished)
  end.

Definition main (fuel : nat) (E : oracle) (duration : string)
  : list event * ending :=
  let '(evs, c) := main_body fuel E duration in
  let '(evs', e) := except_clauses c in
  ((evs ++ evs')%list, e).

(** [n] playbacks that ran to their end, one after the other. *)
Definition plays (n : nat) : list event :=
  List.concat (repeat [RunStart afplay; RunEnd] n).

(** No [subprocess.run] is entered while another one is still under way;
    [busy] tells whether one is. *)
Fixpoint sequential (busy : bool) (tr : list event) : bool :=
  match tr with
  | [] => true
  | RunStart _ :: tr' => negb busy && sequential true tr'
  | RunEnd :: tr' => busy && sequential false tr'
  | _ :: tr' => sequential busy tr'
  end.

Definition is_run_start (e : event) : bool :=
  match e with RunStart _ => true | _ => false end.

Definition is_sleep (e : event) : bool :=
  match e with Sleep _ => true | _ => false end.

Definition count_sleeps (tr : list event) : nat :=
  List.length (filter is_sleep tr).

(** How many times the playback command was launched. *)
Definition count_runs (tr : list event) : nat :=
  List.length (filter is_run_start tr).

(* ------------------------------------------------------------------ *)
(** ** Some environments *)

Module Examples.

(** Every sleep takes exactly the time asked and every playback succeeds. *)
Definition ideal : oracle :=
  {| start_time := 1000;
     sleep_result := fun _ => Some 0%Q;
     run_result := fun _ => Completed |}.

(** Ctrl+C during the third sleep. *)
Definition ctrl_c_while_counting : oracle :=
  {| start_time := 1000;
     sleep_result := fun k => if (k =? 2)%nat then None else Some (1 # 100);
     run_result := fun _ => Completed |}.

(** Ctrl+C during the fourth playback. *)
Definition ctrl_c_while_playing : oracle :=
  {| start_time := 1000;
     sleep_result := fun _ => Some 0%Q;
     run_result := fun i => if (i =? 3)%nat then Interrupted else Completed |}.

Definition afplay_status_1 : string :=
  "Command '['afplay', '/System/Library/Sounds/Ping.aiff']' returned non-zero exit status 1.".

(** The third playback exits with status 1 and a readable message. *)
Definition third_fails : oracle :=
  {| start_time := 1000;
     sleep_result := fun _ => Some 0%Q;
     run_result := fun i =>
       if (i =? 2)%nat then
         CalledProcessError 1 afplay_status_1 (Utf8 (" no audio device" ++ nl))
       else Completed |}.

(** The third playback exits with status 1 having written the byte 0xFF to
    its standard error. *)
Definition third_fails_unreadable : oracle :=
  {| start_time := 1000;
     sleep_result := fun _ => Some 0%Q;
     run_result := fun i =>
       if (i =? 2)%nat then
         CalledProcessError 1 afplay_status_1
           (NotUtf8 "'utf-8' codec can't decode byte 0xff in position 0: invalid start byte")
       else Completed |}.

(** No [afplay] on this system. *)
Definition not_macos : oracle :=
  {| start_time := 1000;
     sleep_result := fun _ => Some 0%Q;
     run_result := fun _ => FileNotFound |}.

End Examples.

(* ------------------------------------------------------------------ *)
(** ** The duration grammar of the specification *)

Module Grammar.
Import Text.

(** A number as the grammar has it: one or more decimal digits. *)
Definition number (ds : string) : bool :=
  negb (String.eqb ds "") && all_digits ds.

Definition optional_number (p : option string) : bool :=
  match p with
  | Some ds => number ds
  | None => true
  end.

(** An optional part: the number followed by its unit letter. *)
Definition render_part (p : option string) (u : ascii) : string :=
  match p with
  | Some ds => ds ++ String u ""
  | None => ""
  end.

(** [{h}h{m}m{s}s], no separators. *)
Definition render (h m s : option string) : string :=
  render_part h "h" ++ render_part m "m" ++ render_part s "s".

Definition present {A : Type} (p : option A) : bool :=
  match p with Some _ => true | None => false end.

Definition value (p : option string) : Z :=
  match p with
  | Some ds => int ds
  | None => 0
  end.

(** Total seconds = hours x 3600 + minutes x 60 + seconds. *)
Definition total (h m s : option string) : Z :=
  value h * 3600 + value m * 60 + value s.

(** The same parts given as numbers, written the usual way. *)
Definition numeral (n : option Z) : option string := option_map str n.

Definition amount (n : option Z) : Z :=
  match n with Some v => v | None => 0 end.

Definition natural (n : option Z) : bool :=
  match n with Some v => 0 <=? v | None => true end.

(** The only characters a duration string is made of. *)
Fixpoint duration_chars (x : string) : bool :=
  match x with
  | EmptyString => true
  | String c x' =>
      (is_digit c || Ascii.eqb c "h" || Ascii.eqb c "m" || Ascii.eqb c "s")
      && duration_chars x'
  end.

(** A valid duration string with its parts: optional hours, minutes and
    seconds in that order, at least one of them. *)
Definition duration_string (x : string) (h m s : option string) : Prop :=
  optional_number h = true /\ optional_number m = true
  /\ optional_number s = true
  /\ present h || present m || present s = true
  /\ x = render h m s.

Definition valid_duration_string (x : string) : Prop :=
  exists h m s, duration_string x h m s.

(** The longest run of digits at the front of a string, and what follows. *)
Fixpoint span_digits (x : string) : string * string :=
  match x with
  | String c x' =>
      if is_digit c then
        let '(ds, tl) := span_digits x' in (String c ds, tl)
      else ("", x)
  | EmptyString => ("", "")
  end.

(** Read one part with unit [u] if the text starts with one. *)
Definition take_part (u : ascii) (x : string) : option (string * string) :=
  match span_digits x with
  | (String d ds, String c tl) =>
      if Ascii.eqb c u then Some (String d ds, tl) else None
  | _ => None
  end.

Definition scan_state : Type := nat * string * Regex.groups.

Definition scan_part (name : string) (u : ascii) (st : scan_state)
  : scan_state :=
  let '(pos, rest, g) := st in
  match take_part u rest with
  | Some (ds, tl) => ((pos + String.length ds + 1)%nat, tl, (name, ds) :: g)
  | None => st
  end.

(** A deterministic left-to-right reading of the pattern of [parse_time]. *)
Definition scan (x : string) : option Regex.match_object :=
  let '(pos, rest, g) :=
    scan_part "seconds" "s"
      (scan_part "minutes" "m" (scan_part "hours" "h" (0%nat, x, [])))
  in
  if String.eqb rest "" || String.eqb rest nl then
    Some {| Regex.group0 := substring 0 pos x; Regex.groupdict := g |}
  else None.

(** The [groupdict()] entry of a part. *)
Definition entry (name : string) (p : option string) : Regex.groups :=
  match p with
  | Some ds => [(name, ds)]
  | None => []
  end.

(** Two properties of what follows a part in the pattern, as a
    continuation [k] of the matcher: [k] cannot go on from a text that
    starts with a digit; *)
Definition stops_at_digit {A : Type} (k : @Regex.cont A) : Prop :=
  forall pos c x g, is_digit c = true -> k pos (String c x) g = None.

(** and [k] cannot go on from a number unless it is followed by one of the
    letters [ok]. *)
Definition needs_unit {A : Type} (ok : ascii -> bool) (k : @Regex.cont A)
  : Prop :=
  forall pos x d ds tl g,
    span_digits x = (String d ds, tl) ->
    match tl with String c _ => ok c = false | EmptyString => True end ->
    k pos x g = None.

End Grammar.

(* ------------------------------------------------------------------ *)
(** ** Vocabulary for statements about runs *)

(** [n, n-1, ..., 1]: what a timer that is on time shows. *)
Fixpoint descending (n : nat) : list Z :=
  match n with
  | O => []
  | S k => Z.of_nat (S k) :: descending k
  end.

(** Every sleep takes exactly the time asked. *)
Definition sleeps_exactly (E : oracle) : Prop :=
  forall k, exists extra, sleep_result E k = Some extra /\ (extra == 0)%Q.

(** The last line of a countdown that ran to its end. *)
Definition times_up : event := Print (String LF "Time's up!") nl.

(** A character a duration string may hold. *)
Definition duration_char (c : ascii) : bool :=
  Text.is_digit c || Ascii.eqb c "h" || Ascii.eqb c "m" || Ascii.eqb c "s".

(* ================================================================== *)
(** * Properties *)

(** ** Decimal text *)

Module TextFacts.
Import Text.

Lemma append_assoc (a b c : string) : (a ++ b) ++ c = a ++ (b ++ c).
Proof. induction a as [|x a IH]; simpl; [reflexivity | now rewrite IH]. Qed.

Lemma append_nil_r (a : string) : a ++ "" = a.
Proof. induction a as [|x a IH]; simpl; [reflexivity | now rewrite IH]. Qed.

Lemma length_append (a b : string) :
  String.length (a ++ b) = (String.length a + String.length b)%nat.
Proof. induction a as [|x a IH]; simpl; [reflexivity | now rewrite IH]. Qed.

Lemma small_cases (d : Z) :
  0 <= d < 10 ->
  d = 0 \/ d = 1 \/ d = 2 \/ d = 3 \/ d = 4 \/ d = 5 \/ d = 6 \/ d = 7
  \/ d = 8 \/ d = 9.
Proof. lia. Qed.

Ltac each_digit d H :=
  destruct (small_cases d H) as [?|[?|[?|[?|[?|[?|[?|[?|[?|?]]]]]]]]]; subst d.

Lemma digit_value_char (d : Z) : 0 <= d < 10 -> digit_value (digit_char d) = d.
Proof. intros H. each_digit d H; reflexivity. Qed.

Lemma is_digit_char (d : Z) : 0 <= d < 10 -> is_digit (digit_char d) = true.
Proof. intros H. each_digit d H; reflexivity. Qed.

Lemma is_digit_value (c : ascii) : is_digit c = true -> 0 <= digit_value c < 10.
Proof.
  unfold is_digit, digit_value. intros H.
  apply andb_true_iff in H as [H1 H2].
  apply Nat.leb_le in H1. apply Nat.leb_le in H2. lia.
Qed.

Lemma int_acc_app (s1 s2 : string) (a : Z) :
  int_acc a (s1 ++ s2) = int_acc (int_acc a s1) s2.
Proof. revert a. induction s1 as [|c s1 IH]; intros a; simpl; auto. Qed.

Lemma int_acc_nonneg (s : string) (a : Z) :
  all_digits s = true -> 0 <= a -> 0 <= int_acc a s.
Proof.
  revert a. induction s as [|c s IH]; intros a Hd Ha; simpl in *; auto.
  apply andb_true_iff in Hd as [Hc Hs].
  apply IH; auto. pose proof (is_digit_value c Hc). lia.
Qed.

Lemma int_nonneg (s : string) : all_digits s = true -> 0 <= int s.
Proof. intros H. apply int_acc_nonneg; auto. lia. Qed.

Lemma all_digits_app (a b : string) :
  all_digits (a ++ b) = all_digits a && all_digits b.
Proof.
  induction a as [|c a IH]; simpl; auto. now rewrite IH, andb_assoc.
Qed.

Lemma str_acc_app (fuel : nat) (n : Z) (acc : string) :
  str_acc fuel n acc = str_acc fuel n "" ++ acc.
Proof.
  revert n acc. induction fuel as [|f IH]; intros n acc; simpl; auto.
  destruct (n <? 10); auto.
  rewrite IH. rewrite (IH _ (String _ "")). now rewrite append_assoc.
Qed.

Lemma log2_tenth (n : Z) : 10 <= n -> Z.log2 (n / 10) < Z.log2 n.
Proof.
  intros H.
  assert (Hle : Z.log2 (n / 10) <= Z.log2 (n / 2)).
  { apply Z.log2_le_mono.
    assert (n / 10 * 10 <= n) by (pose proof (Z.mod_pos_bound n 10);
      pose proof (Z.div_mod n 10); lia).
    assert (n < (n / 2 + 1) * 2) by (pose proof (Z.mod_pos_bound n 2);
      pose proof (Z.div_mod n 2); lia).
    lia. }
  assert (Z.log2 (n / 2) = Z.log2 n - 1).
  { change 2 with (2 ^ 1). rewrite <- Z.shiftr_div_pow2 by lia.
    rewrite Z.log2_shiftr by lia.
    assert (1 <= Z.log2 n) by (change 1 with (Z.log2 2); apply Z.log2_le_mono; lia).
    lia. }
  lia.
Qed.

Lemma int_str_acc (fuel : nat) (n : Z) :
  0 <= n -> Z.log2 n <= Z.of_nat fuel -> int (str_acc fuel n "") = n.
Proof.
  revert n. induction fuel as [|f IH]; intros n Hn Hlog.
  - assert (n < 2).
    { destruct (Z.lt_ge_cases n 2) as [|H2]; auto.
      assert (Z.log2 2 <= Z.log2 n) by (apply Z.log2_le_mono; lia).
      change (Z.log2 2) with 1 in *. lia. }
    simpl. unfold int. simpl. rewrite Z.mod_small by lia.
    rewrite digit_value_char; lia.
  - simpl. destruct (n <? 10) eqn:Hlt.
    + apply Z.ltb_lt in Hlt. unfold int. simpl. rewrite Z.mod_small by lia.
      rewrite digit_value_char; lia.
    + apply Z.ltb_ge in Hlt. rewrite str_acc_app. unfold int.
      rewrite int_acc_app. fold (int (str_acc f (n / 10) "")).
      rewrite IH.
      * simpl. rewrite digit_value_char by (apply Z.mod_pos_bound; lia).
        pose proof (Z.div_mod n 10). lia.
      * apply Z.div_pos; lia.
      * pose proof (log2_tenth n Hlt). lia.
Qed.

Lemma all_digits_str_acc (fuel : nat) (n : Z) :
  0 <= n -> all_digits (str_acc fuel n "") = true.
Proof.
  revert n. induction fuel as [|f IH]; intros n Hn; simpl.
  - rewrite is_digit_char; auto. apply Z.mod_pos_bound; lia.
  - destruct (n <? 10) eqn:Hlt; simpl.
    + rewrite is_digit_char; auto. apply Z.mod_pos_bound; lia.
    + rewrite str_acc_app, all_digits_app, IH by (apply Z.div_pos; lia).
      simpl. rewrite is_digit_char; auto. apply Z.mod_pos_bound; lia.
Qed.

Lemma str_acc_length (fuel : nat) (n : Z) :
  (1 <= String.length (str_acc fuel n ""))%nat.
Proof.
  destruct fuel; simpl; [lia|]. destruct (n <? 10); simpl; [lia|].
  rewrite str_acc_app, length_append. simpl. lia.
Qed.

(** [int(str(n)) == n] for every natural number. *)
Lemma int_str_nonneg (n : Z) : 0 <= n -> int (str_nonneg n) = n.
Proof.
  intros Hn. apply int_str_acc; auto.
  pose proof (Z.log2_nonneg n). lia.
Qed.

Lemma all_digits_str_nonneg (n : Z) : 0 <= n -> all_digits (str_nonneg n) = true.
Proof. intros Hn. now apply all_digits_str_acc. Qed.

Lemma str_nonneg_nonempty (n : Z) : str_nonneg n <> "".
Proof.
  unfold str_nonneg. intros H.
  pose proof (str_acc_length (Z.to_nat (Z.log2 n)) n) as L.
  rewrite H in L. simpl in L. lia.
Qed.

Lemma str_nonneg_one_digit (n : Z) :
  0 <= n < 10 -> str_nonneg n = String (digit_char n) "".
Proof.
  intros H. unfold str_nonneg.
  destruct (Z.to_nat (Z.log2 n)); simpl.
  - now rewrite Z.mod_small by lia.
  - destruct (n <? 10) eqn:E; [now rewrite Z.mod_small by lia|].
    apply Z.ltb_ge in E. lia.
Qed.

Lemma str_nonneg_two_digits (n : Z) :
  10 <= n < 100 ->
  str_nonneg n = String (digit_char (n / 10)) (String (digit_char (n mod 10)) "").
Proof.
  intros H. unfold str_nonneg.
  assert (3 <= Z.log2 n).
  { change 3 with (Z.log2 8). apply Z.log2_le_mono. lia. }
  destruct (Z.to_nat (Z.log2 n)) as [|f] eqn:E; [lia|]. simpl.
  destruct (n <? 10) eqn:E1; [apply Z.ltb_lt in E1; lia|].
  assert (0 <= n / 10 < 10).
  { split; [apply Z.div_pos; lia | apply Z.div_lt_upper_bound; lia]. }
  destruct f; simpl.
  - now rewrite (Z.mod_small (n / 10)) by lia.
  - destruct (n / 10 <? 10) eqn:E2; [now rewrite (Z.mod_small (n / 10)) by lia|].
    apply Z.ltb_ge in E2. lia.
Qed.

Lemma str_nonneg_long (n : Z) :
  10 <= n -> (2 <= String.length (str_nonneg n))%nat.
Proof.
  intros H. unfold str_nonneg.
  assert (3 <= Z.log2 n).
  { change 3 with (Z.log2 8). apply Z.log2_le_mono. lia. }
  destruct (Z.to_nat (Z.log2 n)) as [|f] eqn:E; [lia|]. simpl.
  destruct (n <? 10) eqn:E1; [apply Z.ltb_lt in E1; lia|].
  rewrite str_acc_app, length_append. simpl.
  pose proof (str_acc_length f (n / 10)). lia.
Qed.

(** What [f"{n:02d}"] gives for a natural number: decimal digits that read
    back as [n], at least two of them, exactly two below 100. *)
Lemma format_02d_spec (n : Z) :
  0 <= n ->
  all_digits (format_02d n) = true
  /\ int (format_02d n) = n
  /\ (2 <= String.length (format_02d n))%nat
  /\ (n < 100 -> String.length (format_02d n) = 2%nat).
Proof.
  intros Hn. unfold format_02d.
  destruct (n <? 0) eqn:E0; [apply Z.ltb_lt in E0; lia|].
  destruct (n <? 10) eqn:E1.
  - apply Z.ltb_lt in E1. rewrite str_nonneg_one_digit by lia.
    simpl. rewrite is_digit_char by lia. unfold int. simpl.
    rewrite digit_value_char by lia. repeat split; auto.
  - apply Z.ltb_ge in E1.
    rewrite all_digits_str_nonneg, int_str_nonneg by lia.
    repeat split; auto.
    + now apply str_nonneg_long.
    + intros H. now rewrite str_nonneg_two_digits by lia.
Qed.

End TextFacts.

(** ** The matcher on the pattern of [parse_time] *)

Module RegexFacts.
Import Text Regex Grammar TextFacts.

Lemma span_digits_app (x : string) :
  x = fst (span_digits x) ++ snd (span_digits x).
Proof.
  induction x as [|c x IH]; simpl; auto.
  destruct (is_digit c); simpl; auto.
  destruct (span_digits x) as [ds tl]. simpl in *. now rewrite <- IH.
Qed.

Lemma span_digits_all (x : string) : all_digits (fst (span_digits x)) = true.
Proof.
  induction x as [|c x IH]; simpl; auto.
  destruct (is_digit c) eqn:E; simpl; auto.
  destruct (span_digits x) as [ds tl]. simpl in *. now rewrite E.
Qed.

Lemma span_digits_stop (x : string) :
  match snd (span_digits x) with
  | String c _ => is_digit c = false
  | EmptyString => True
  end.
Proof.
  induction x as [|c x IH]; simpl; auto.
  destruct (is_digit c) eqn:E; simpl; auto.
  destruct (span_digits x) as [ds tl]. simpl in *. exact IH.
Qed.

(** The run of digits in front of a character that is not one. *)
Lemma span_digits_number (ds : string) (c : ascii) (tl : string) :
  all_digits ds = true -> is_digit c = false ->
  span_digits (ds ++ String c tl) = (ds, String c tl).
Proof.
  intros Hd Hc. induction ds as [|d ds IH]; simpl in *.
  - now rewrite Hc.
  - apply andb_true_iff in Hd as [Hd1 Hd2]. rewrite Hd1, IH; auto.
Qed.

Lemma number_inv (ds : string) :
  number ds = true -> ds <> "" /\ all_digits ds = true.
Proof.
  unfold number. intros H. apply andb_true_iff in H as [H1 H2]. split; auto.
  intros ->. discriminate.
Qed.

Lemma take_part_number (u c : ascii) (ds tl : string) :
  number ds = true -> is_digit c = false ->
  take_part u (ds ++ String c tl)
  = if Ascii.eqb c u then Some (ds, tl) else None.
Proof.
  intros Hn Hc. apply number_inv in Hn as [Hne Hd].
  unfold take_part. rewrite span_digits_number by auto.
  destruct ds; [contradiction|reflexivity].
Qed.

Lemma take_part_inv (u : ascii) (x ds tl : string) :
  take_part u x = Some (ds, tl) -> number ds = true /\ x = ds ++ String u tl.
Proof.
  unfold take_part. intros H.
  pose proof (span_digits_app x) as Happ.
  pose proof (span_digits_all x) as Hall.
  destruct (span_digits x) as [[|d ds'] [|c tl']]; try discriminate.
  destruct (Ascii.eqb c u) eqn:E; try discriminate.
  apply Ascii.eqb_eq in E. subst c. inversion H; subst. simpl in *.
  split; auto.
Qed.

Lemma substring_prefix (a b : string) :
  substring 0 (String.length a) (a ++ b) = a.
Proof.
  induction a as [|c a IH]; simpl.
  - destruct b; reflexivity.
  - now rewrite IH.
Qed.

Section Continuations.
Context {A : Type}.
Implicit Types k : @cont A.

(** Giving digits back never helps when what follows cannot start with a
    digit: [\d+] ends where the digits end. *)
Lemma digits_star_greedy k pos x g :
  stops_at_digit k ->
  digits_star pos x g k
  = k (pos + String.length (fst (span_digits x)))%nat (snd (span_digits x)) g.
Proof.
  intros Hk. revert pos. induction x as [|c x IH]; intros pos; simpl.
  - now rewrite Nat.add_0_r.
  - destruct (is_digit c) eqn:E.
    + rewrite IH. destruct (span_digits x) as [ds tl]. simpl.
      rewrite (Hk pos c x g E), Nat.add_succ_r.
      now destruct (k _ tl g).
    + simpl. now rewrite Nat.add_0_r.
Qed.

(** One optional part in front of a continuation that does not take its
    unit letter: the matcher reads the part when it is there. *)
Lemma run_part name u ok k pos x g :
  is_digit u = false -> ok u = false -> needs_unit ok k ->
  run (part name u) pos x g k
  = match take_part u x with
    | Some (ds, tl) =>
        k (pos + String.length ds + 1)%nat tl ((name, ds) :: g)
    | None => k pos x g
    end.
Proof.
  intros Hu Hok Hk. unfold part, take_part. cbn [run].
  pose proof (span_digits_app x) as Happ.
  pose proof (span_digits_stop x) as Hstop.
  destruct x as [|c x]; [reflexivity|].
  cbn [span_digits] in *.
  destruct (is_digit c) eqn:Ec; [|reflexivity].
  rewrite digits_star_greedy.
  2:{ intros p c' x' g' Hc'. cbn.
      destruct (Ascii.eqb c' u) eqn:E; auto.
      apply Ascii.eqb_eq in E. congruence. }
  destruct (span_digits x) as [ds tl] eqn:Es. cbn [fst snd] in *.
  destruct tl as [|c' tl]; [reflexivity|].
  destruct (Ascii.eqb c' u) eqn:E; [|reflexivity].
  apply Ascii.eqb_eq in E. subst c'.
  replace (S pos + String.length ds - pos)%nat with (S (String.length ds)) by lia.
  injection Happ as Happ. rewrite Happ at 1.
  cbn [substring]. rewrite substring_prefix.
  replace (S (S pos + String.length ds)) with
    (pos + String.length (String c ds) + 1)%nat by (simpl; lia).
  destruct (k _ tl _) eqn:Ek; auto.
  eapply (Hk pos (String c x) c ds (String u tl)).
  - cbn [span_digits]. now rewrite Ec, Es.
  - exact Hok.
Qed.

Lemma needs_unit_part name u ok k :
  is_digit u = false -> ok u = false -> needs_unit ok k ->
  needs_unit (fun c => ok c || Ascii.eqb c u)
    (fun pos x g => run (part name u) pos x g k).
Proof.
  intros Hu Hok Hk pos x d ds tl g Hs Htl.
  rewrite (run_part name u ok) by auto.
  unfold take_part. rewrite Hs.
  destruct tl as [|c tl].
  - eapply Hk; eauto.
  - apply orb_false_iff in Htl as [H1 H2]. rewrite H2.
    eapply Hk; eauto.
Qed.

Lemma needs_unit_eol k :
  needs_unit (fun _ => false) (fun pos x g => run Eol pos x g k).
Proof.
  intros pos x d ds tl g Hs _. cbn.
  destruct x as [|c x]; [discriminate|]. cbn in Hs.
  destruct (is_digit c) eqn:Ec; [|discriminate].
  destruct x; auto.
  destruct (Ascii.eqb c "010") eqn:E; auto.
  apply Ascii.eqb_eq in E. subst c. discriminate.
Qed.
End Continuations.

(** [re.match] with the pattern of [parse_time] is the left-to-right scan. *)
Lemma re_match_scan (x : string) : re_match time_regex x = scan x.
Proof.
  unfold re_match, time_regex, scan. cbn [run Nat.eqb].
  set (kf := fun pos (_ : string) g =>
               Some {| group0 := substring 0 pos x; groupdict := g |}).
  pose proof (needs_unit_eol kf) as H3.
  pose proof (needs_unit_part "seconds" "s" _ _ eq_refl eq_refl H3) as H2.
  pose proof (needs_unit_part "minutes" "m" _ _ eq_refl eq_refl H2) as H1.
  rewrite (run_part "hours" "h" _ _ _ _ _ eq_refl eq_refl H1).
  unfold scan_part at 3.
  destruct (take_part "h" x) as [[dh t1]|].
  all: rewrite (run_part "minutes" "m" _ _ _ _ _ eq_refl eq_refl H2).
  all: unfold scan_part at 2.
  all: match goal with |- context [take_part "m" ?r] =>
         destruct (take_part "m" r) as [[dm t2]|] end.
  all: rewrite (run_part "seconds" "s" _ _ _ _ _ eq_refl eq_refl H3).
  all: unfold scan_part.
  all: match goal with |- context [take_part "s" ?r] =>
         destruct (take_part "s" r) as [[dsec t3]|] end.
  all: cbn [run]; unfold kf, nl, LF.
  all: match goal with |- context [String.eqb ?r ""] =>
         destruct r as [|c [|c' r']]; cbn; auto end.
  all: try (destruct (Ascii.eqb c "010") eqn:E; cbn; auto;
            try (apply Ascii.eqb_eq in E; subst c; reflexivity);
            try (rewrite E; reflexivity)).
Qed.

End RegexFacts.

(** ** [parse_time] *)

Module ParseFacts.
Import Text Regex Grammar TextFacts RegexFacts.

Lemma take_part_empty (u : ascii) : take_part u "" = None.
Proof. reflexivity. Qed.

Lemma substring_all (x : string) : substring 0 (String.length x) x = x.
Proof.
  rewrite <- (append_nil_r x) at 2. apply substring_prefix.
Qed.

Lemma scan_part_present name u pos ds rest g :
  number ds = true -> is_digit u = false ->
  scan_part name u (pos, ds ++ String u rest, g)
  = ((pos + String.length ds + 1)%nat, rest, (name, ds) :: g).
Proof.
  intros Hn Hu. unfold scan_part.
  now rewrite take_part_number, Ascii.eqb_refl by auto.
Qed.

Lemma scan_part_other name u pos ds c rest g :
  number ds = true -> is_digit c = false -> Ascii.eqb c u = false ->
  scan_part name u (pos, ds ++ String c rest, g)
  = (pos, ds ++ String c rest, g).
Proof.
  intros Hn Hc Hcu. unfold scan_part.
  now rewrite take_part_number, Hcu by auto.
Qed.

Lemma scan_part_empty name u pos g :
  scan_part name u (pos, "", g) = (pos, "", g).
Proof. reflexivity. Qed.

Lemma scan_part_nl name u pos g :
  scan_part name u (pos, nl, g) = (pos, nl, g).
Proof. reflexivity. Qed.

Ltac read_parts :=
  repeat first
    [ rewrite scan_part_empty
    | rewrite scan_part_nl
    | rewrite scan_part_present by (auto; reflexivity)
    | rewrite scan_part_other by (auto; reflexivity) ].

(** The scan of a valid duration string, alone or followed by one newline,
    reads exactly its parts. *)
Lemma scan_render_tail (h m s : option string) (tail : string) :
  optional_number h = true -> optional_number m = true ->
  optional_number s = true -> tail = "" \/ tail = nl ->
  scan (render h m s ++ tail)
  = Some {| group0 := render h m s;
            groupdict := (entry "seconds" s ++ entry "minutes" m
                          ++ entry "hours" h)%list |}.
Proof.
  intros Hh Hm Hs Htail. unfold scan.
  set (y := render h m s).
  assert (Hy : y = render h m s) by reflexivity. clearbody y.
  set (x := y ++ tail).
  assert (Hx : x = y ++ tail) by reflexivity. clearbody x.
  assert (Hx2 : x = render h m s ++ tail) by congruence.
  unfold render, render_part in Hx2, Hy.
  destruct Htail as [-> | ->];
    destruct h as [dh|], m as [dm|], s as [dsec|]; cbn [optional_number] in *.
  all: rewrite ?append_assoc in Hx2; cbn [append] in Hx2.
  all: rewrite Hx2 at 1; read_parts; cbn [String.eqb orb entry app];
    try (unfold nl, LF; cbn [String.eqb Ascii.eqb Bool.eqb andb orb]).
  all: do 2 f_equal; rewrite Hx.
  all: match goal with |- substring 0 _ (_ ++ ?tl) = _ =>
         transitivity (substring 0 (String.length y) (y ++ tl)) end;
    [f_equal | apply substring_prefix].
  all: rewrite Hy; cbn [String.length];
    repeat (rewrite length_append; cbn [String.length]); lia.
Qed.

Lemma scan_render (h m s : option string) :
  optional_number h = true -> optional_number m = true ->
  optional_number s = true ->
  scan (render h m s)
  = Some {| group0 := render h m s;
            groupdict := (entry "seconds" s ++ entry "minutes" m
                          ++ entry "hours" h)%list |}.
Proof.
  intros Hh Hm Hs. rewrite <- (append_nil_r (render h m s)) at 1.
  apply scan_render_tail; auto.
Qed.

Lemma scan_part_inv name u pos rest g pos' rest' g' :
  scan_part name u (pos, rest, g) = (pos', rest', g') ->
  exists p, optional_number p = true
            /\ rest = render_part p u ++ rest'
            /\ pos' = (pos + String.length (render_part p u))%nat
            /\ g' = (entry name p ++ g)%list.
Proof.
  unfold scan_part. destruct (take_part u rest) as [[ds tl]|] eqn:E; intros H.
  - apply take_part_inv in E as [Hn ->]. inversion H; subst.
    exists (Some ds). cbn [optional_number render_part entry app].
    rewrite append_assoc, length_append. cbn. repeat split; auto. lia.
  - inversion H; subst. exists None. cbn. repeat split; auto.
Qed.

(** Whatever the scan accepts is a duration string, possibly followed by
    one newline. *)
Lemma scan_inv (x : string) (mo : match_object) :
  scan x = Some mo ->
  exists h m s tail,
    optional_number h = true /\ optional_number m = true
    /\ optional_number s = true
    /\ x = render h m s ++ tail /\ (tail = "" \/ tail = nl)
    /\ group0 mo = render h m s
    /\ groupdict mo = (entry "seconds" s ++ entry "minutes" m
                       ++ entry "hours" h)%list.
Proof.
  unfold scan.
  destruct (scan_part "hours" "h" (0%nat, x, [])) as [[p1 r1] g1] eqn:E1.
  destruct (scan_part "minutes" "m" (p1, r1, g1)) as [[p2 r2] g2] eqn:E2.
  destruct (scan_part "seconds" "s" (p2, r2, g2)) as [[p3 r3] g3] eqn:E3.
  apply scan_part_inv in E1 as (h & Hh & X1 & P1 & G1).
  apply scan_part_inv in E2 as (m & Hm & X2 & P2 & G2).
  apply scan_part_inv in E3 as (s & Hs & X3 & P3 & G3).
  intros H.
  destruct (String.eqb r3 "" || String.eqb r3 nl) eqn:Et; [|discriminate].
  inversion H; subst mo; clear H. cbn [group0 groupdict].
  exists h, m, s, r3.
  assert (Hx : x = render h m s ++ r3).
  { unfold render. rewrite !append_assoc. congruence. }
  repeat split; auto.
  - apply orb_true_iff in Et as [Et|Et]; apply String.eqb_eq in Et; auto.
  - rewrite Hx.
    replace p3 with (String.length (render h m s)).
    + apply substring_prefix.
    + unfold render. rewrite !length_append. lia.
  - subst. now rewrite app_nil_r.
Qed.

Lemma group_entries (h m s : option string) :
  let g := (entry "seconds" s ++ entry "minutes" m ++ entry "hours" h)%list in
  group "hours" g = h /\ group "minutes" g = m /\ group "seconds" g = s.
Proof. destruct h, m, s; cbn; auto. Qed.

Lemma int_or_zero_value (p : option string) : int_or_zero p = value p.
Proof. destruct p as [[|c ds]|]; reflexivity. Qed.

Lemma value_nonneg (p : option string) :
  optional_number p = true -> 0 <= value p.
Proof.
  destruct p as [ds|]; cbn; [|lia].
  intros H. apply number_inv in H as [_ H]. now apply int_nonneg.
Qed.

Lemma render_empty (h m s : option string) :
  optional_number h = true -> optional_number m = true ->
  optional_number s = true ->
  String.eqb (render h m s) "" = negb (present h || present m || present s).
Proof.
  intros Hh Hm Hs. unfold render, render_part.
  destruct h as [[|c dh]|]; [discriminate|reflexivity|].
  destruct m as [[|c dm]|]; [discriminate|reflexivity|].
  destruct s as [[|c dsec]|]; [discriminate|reflexivity|reflexivity].
Qed.

(** [parse_time] in terms of the match object. *)
Lemma parse_time_of_match (x : string) (h m s : option string) :
  optional_number h = true -> optional_number m = true ->
  optional_number s = true ->
  scan x = Some {| group0 := render h m s;
                   groupdict := (entry "seconds" s ++ entry "minutes" m
                                 ++ entry "hours" h)%list |} ->
  parse_time x
  = if present h || present m || present s then
      if total h m s <=? 0 then ValueError (msg_no_units x)
      else Ok (total h m s)
    else ValueError (msg_bad_format x).
Proof.
  intros Hh Hm Hs Hscan. unfold parse_time.
  rewrite re_match_scan, Hscan. cbn [group0 groupdict].
  rewrite render_empty by auto.
  destruct (present h || present m || present s); cbn [negb]; auto.
  destruct (group_entries h m s) as (-> & -> & ->).
  rewrite !int_or_zero_value. unfold total.
  pose proof (value_nonneg h Hh). pose proof (value_nonneg m Hm).
  pose proof (value_nonneg s Hs).
  replace (0 + value h * 3600 + value m * 60 + value s)
    with (value h * 3600 + value m * 60 + value s) by lia.
  destruct (value h * 3600 + value m * 60 + value s <=? 0) eqn:E; auto.
  apply Z.leb_le in E.
  replace (value h) with 0 by lia. replace (value m) with 0 by lia.
  replace (value s) with 0 by lia. reflexivity.
Qed.

(** Every call of [parse_time] ends in one of three ways. *)
Lemma parse_time_cases (x : string) :
  parse_time x = ValueError (msg_bad_format x)
  \/ exists h m s tail,
       duration_string (render h m s) h m s
       /\ x = render h m s ++ tail /\ (tail = "" \/ tail = nl)
       /\ parse_time x
          = if total h m s <=? 0 then ValueError (msg_no_units x)
            else Ok (total h m s).
Proof.
  destruct (scan x) as [mo|] eqn:E.
  - pose proof (scan_inv x mo E) as (h & m & s & tail & Hh & Hm & Hs & Hx & Ht & G0 & Gd).
    destruct mo as [g0 gd]. cbn in G0, Gd. subst g0 gd.
    rewrite (parse_time_of_match x h m s) by auto.
    destruct (present h || present m || present s) eqn:Ep; auto.
    right. exists h, m, s, tail. unfold duration_string. repeat split; auto.
  - left. unfold parse_time. now rewrite re_match_scan, E.
Qed.

(** A valid duration string parses to its total when that is positive. *)
Lemma parse_time_duration_string (x : string) (h m s : option string) :
  duration_string x h m s -> 0 < total h m s ->
  parse_time x = Ok (total h m s).
Proof.
  intros (Hh & Hm & Hs & Hp & ->) Hpos.
  rewrite (parse_time_of_match _ h m s) by (auto using scan_render).
  rewrite Hp. destruct (total h m s <=? 0) eqn:E; auto.
  apply Z.leb_le in E. lia.
Qed.

(** A valid duration string whose total is not positive is rejected. *)
Lemma parse_time_zero_total (x : string) (h m s : option string) :
  duration_string x h m s -> total h m s <= 0 ->
  parse_time x = ValueError (msg_no_units x).
Proof.
  intros (Hh & Hm & Hs & Hp & ->) Hpos.
  rewrite (parse_time_of_match _ h m s) by (auto using scan_render).
  rewrite Hp. destruct (total h m s <=? 0) eqn:E; auto.
  apply Z.leb_gt in E. lia.
Qed.

Lemma parse_time_positive (x : string) (n : Z) : parse_time x = Ok n -> 0 < n.
Proof.
  destruct (parse_time_cases x) as [H|(h & m & s & tail & _ & _ & _ & H)];
    rewrite H; [discriminate|].
  destruct (total h m s <=? 0) eqn:E; [discriminate|].
  apply Z.leb_gt in E. congruence.
Qed.

(** What [parse_time] accepts: a valid duration string with a positive
    total, possibly followed by one newline. *)
Lemma parse_time_ok_inv (x : string) (n : Z) :
  parse_time x = Ok n ->
  exists y h m s,
    duration_string y h m s /\ (x = y \/ x = y ++ nl)
    /\ n = total h m s /\ 0 < n.
Proof.
  intros H. pose proof (parse_time_positive x n H) as Hpos.
  destruct (parse_time_cases x) as [H'|(h & m & s & tail & D & Hx & Ht & H')];
    rewrite H' in H; [discriminate|].
  destruct (total h m s <=? 0); [discriminate|]. inversion H; subst n.
  exists (render h m s), h, m, s.
  split; [exact D|]. split; [|split; auto].
  destruct Ht as [-> | ->]; [left; now rewrite append_nil_r in Hx | now right].
Qed.

Lemma occurs_in_quoted (pre x post : string) : occurs_in x (pre ++ x ++ post).
Proof. now exists pre, post. Qed.

Lemma str_natural (v : Z) : 0 <= v -> str v = str_nonneg v.
Proof.
  intros H. unfold str. destruct (v <? 0) eqn:E; auto.
  apply Z.ltb_lt in E. lia.
Qed.

Lemma numeral_number (n : option Z) :
  natural n = true -> optional_number (numeral n) = true.
Proof.
  destruct n as [v|]; cbn; auto. intros H. apply Z.leb_le in H.
  rewrite str_natural by auto. unfold number.
  rewrite all_digits_str_nonneg by auto.
  destruct (str_nonneg v) eqn:E; auto.
  now apply str_nonneg_nonempty in E.
Qed.

Lemma numeral_value (n : option Z) :
  natural n = true -> value (numeral n) = amount n.
Proof.
  destruct n as [v|]; cbn; auto. intros H. apply Z.leb_le in H.
  rewrite str_natural by auto. now apply int_str_nonneg.
Qed.

Lemma numeral_present (n : option Z) : present (numeral n) = present n.
Proof. now destruct n. Qed.

(** Parts given as numbers parse to hours x 3600 + minutes x 60 + seconds. *)
Lemma parse_time_numerals (h m s : option Z) :
  natural h = true -> natural m = true -> natural s = true ->
  present h || present m || present s = true ->
  0 < amount h * 3600 + amount m * 60 + amount s ->
  parse_time (render (numeral h) (numeral m) (numeral s))
  = Ok (amount h * 3600 + amount m * 60 + amount s).
Proof.
  intros Hh Hm Hs Hp Hpos.
  rewrite <- (numeral_value h), <- (numeral_value m), <- (numeral_value s)
    in * by auto.
  apply parse_time_duration_string; auto.
  unfold duration_string. rewrite !numeral_present.
  auto using numeral_number.
Qed.

Lemma duration_chars_app (a b : string) :
  duration_chars (a ++ b) = duration_chars a && duration_chars b.
Proof.
  induction a as [|c a IH]; cbn [append duration_chars]; auto.
  now rewrite IH, andb_assoc.
Qed.

Lemma duration_chars_digits (ds : string) :
  all_digits ds = true -> duration_chars ds = true.
Proof.
  induction ds as [|c ds IH]; cbn [all_digits duration_chars]; auto.
  intros H. apply andb_true_iff in H as [-> H]. now rewrite IH.
Qed.

Lemma duration_chars_part (p : option string) (u : ascii) :
  optional_number p = true -> duration_chars (String u "") = true ->
  duration_chars (render_part p u) = true.
Proof.
  destruct p as [ds|]; cbn [render_part optional_number]; auto.
  intros H Hu. apply number_inv in H as [_ H].
  now rewrite duration_chars_app, duration_chars_digits, Hu.
Qed.

(** A valid duration string holds digits and unit letters only. *)
Lemma valid_duration_chars (x : string) :
  valid_duration_string x -> duration_chars x = true.
Proof.
  intros (h & m & s & Hh & Hm & Hs & _ & ->). unfold render.
  now rewrite !duration_chars_app, !duration_chars_part.
Qed.

Lemma parse_time_messages (x e : string) :
  parse_time x = ValueError e -> e = msg_bad_format x \/ e = msg_no_units x.
Proof.
  intros H.
  destruct (parse_time_cases x) as [H'|(h & m & s & tail & _ & _ & _ & H')];
    rewrite H' in H.
  - left. congruence.
  - destruct (total h m s <=? 0); [right; congruence | discriminate].
Qed.

(** The three numbers [parse_time] adds up are never negative. *)
Lemma components_nonneg (x : string) (mo : match_object) :
  re_match time_regex x = Some mo ->
  0 <= int_or_zero (group "hours" (groupdict mo))
  /\ 0 <= int_or_zero (group "minutes" (groupdict mo))
  /\ 0 <= int_or_zero (group "seconds" (groupdict mo)).
Proof.
  rewrite re_match_scan. intros H.
  apply scan_inv in H as (h & m & s & tail & Hh & Hm & Hs & _ & _ & _ & ->).
  destruct (group_entries h m s) as (-> & -> & ->).
  rewrite !int_or_zero_value. auto using value_nonneg.
Qed.



(** C2 (what the code does at a string outside the grammar): the duration
    5s followed by a newline is not a valid duration string, since a
    newline is neither a digit nor a unit letter, and yet [parse_time]
    returns 5 for it: [$] also matches just before a newline that ends
    the string. *)
Theorem parse_time_trailing_newline :
  ~ valid_duration_string ("5s" ++ nl) /\ parse_time ("5s" ++ nl) = Ok 5.
Proof.
  split; [|reflexivity].
  intros H. apply valid_duration_chars in H. discriminate.
Qed.



(** A valid duration string with a positive total is accepted, also when
    one newline follows it. *)
Lemma parse_time_accepts (x y : string) (h m s : option string) :
  duration_string y h m s -> 0 < total h m s -> x = y \/ x = y ++ nl ->
  parse_time x = Ok (total h m s).
Proof.
  intros (Hh & Hm & Hs & Hp & ->) Hpos Hx.
  assert (Hscan : scan x
                  = Some {| group0 := render h m s;
                            groupdict := (entry "seconds" s ++ entry "minutes" m
                                          ++ entry "hours" h)%list |}).
  { destruct Hx as [-> | ->]; [now apply scan_render|].
    apply scan_render_tail; auto. }
  rewrite (parse_time_of_match x h m s) by auto.
  rewrite Hp. destruct (total h m s <=? 0) eqn:E; auto.
  apply Z.leb_le in E. lia.
Qed.



End ParseFacts.

(** ** [countdown] *)

Module CountdownFacts.
Import Text TextFacts.

Lemma py_round_le (x : Q) (n : Z) : (x <= inject_Z n)%Q -> py_round x <= n.
Proof.
  intros H. unfold py_round.
  pose proof (Qfloor_le x) as Hlo.
  assert (Hf : Qfloor x <= n).
  { rewrite <- (Qfloor_Z n). now apply Qfloor_resp_le. }
  destruct (Z.eq_dec (Qfloor x) n) as [E|E].
  - rewrite E in *.
    destruct (Qcompare_spec (x - inject_Z n) (1 # 2)) as [C|C|C];
      [lra | lia | lra].
  - destruct (Qcompare _ _); [destruct (Z.even _)| |]; lia.
Qed.

Lemma countdown_loop_eq fuel E end_time now k :
  countdown_loop (S fuel) E end_time now k
  = if py_round (end_time - now) <=? 0 then
      ([Print (String LF "Time's up!") nl], Return tt)
    else
      match sleep_result E k with
      | None =>
          (tick_events (py_round (end_time - now)), Raise ExKeyboardInterrupt)
      | Some extra =>
          let '(evs, c) :=
            countdown_loop fuel E end_time
              (now + inject_Z (Z.min 1 (py_round (end_time - now))) + extra)
              (S k)
          in ((tick_events (py_round (end_time - now)) ++ evs)%list, c)
      end.
Proof. reflexivity. Qed.

Lemma inject_Z_succ (m : nat) :
  (inject_Z (Z.of_nat (S m)) == inject_Z (Z.of_nat m) + 1)%Q.
Proof.
  rewrite Nat2Z.inj_succ. unfold Z.succ. now rewrite inject_Z_plus.
Qed.

Section Uninterrupted.
Variable E : oracle.
Variable end_time : Q.
Hypothesis Hlong : sleeps_long_enough E.
Hypothesis Hquiet : uninterrupted E.

(** With at most [m] seconds to go the loop is over within [m] passes,
    whatever fuel above [m] it is given. *)
Lemma countdown_loop_completes (m : nat) :
  forall now k,
    (end_time - now <= inject_Z (Z.of_nat m))%Q ->
    exists rs,
      (List.length rs <= m)%nat
      /\ Forall (fun r => 0 < r <= Z.of_nat m) rs
      /\ forall fuel, (m < fuel)%nat ->
           countdown_loop fuel E end_time now k
           = ((List.concat (map tick_events rs)
               ++ [Print (String LF "Time's up!") nl])%list, Return tt).
Proof.
  induction m as [|m IH]; intros now k Hm.
  - exists []. repeat split; auto.
    intros [|fuel] Hf; [lia|]. rewrite countdown_loop_eq.
    pose proof (py_round_le _ _ Hm) as Hr. cbn in Hr.
    apply Z.leb_le in Hr. now rewrite Hr.
  - pose proof (py_round_le _ _ Hm) as Hr.
    destruct (py_round (end_time - now) <=? 0) eqn:Hz.
    + exists []. repeat split; auto; [cbn; lia|].
      intros [|fuel] Hf; [lia|]. rewrite countdown_loop_eq. now rewrite Hz.
    + apply Z.leb_gt in Hz.
      destruct (sleep_result E k) as [extra|] eqn:Hs;
        [|now apply Hquiet in Hs].
      pose proof (Hlong k extra Hs) as Hextra.
      assert (Hd : Z.min 1 (py_round (end_time - now)) = 1) by lia.
      destruct (IH (now + inject_Z 1 + extra)%Q (S k)) as (rs & Hlen & Hrs & Hrun).
      { rewrite inject_Z_succ in Hm. change (inject_Z 1) with 1%Q. lra. }
      exists (py_round (end_time - now) :: rs). repeat split.
      * cbn. lia.
      * constructor; [lia|].
        eapply Forall_impl; [|exact Hrs]. cbn. intros; lia.
      * intros [|fuel] Hf; [lia|]. rewrite countdown_loop_eq.
        apply Z.leb_gt in Hz. rewrite Hz, Hs, Hd, Hrun by lia.
        cbn [map List.concat]. now rewrite <- app_assoc.
Qed.
End Uninterrupted.


Lemma ideal_sleeps_long_enough : sleeps_long_enough Examples.ideal.
Proof. intros k extra H. injection H as <-. apply Qle_refl. Defined.

Lemma ideal_uninterrupted : uninterrupted Examples.ideal.
Proof. intros k H. discriminate H. Defined.


(** C8: when a pass of the loop finds a positive [remaining] it prints
    [Time remaining: HH:MM:SS] ended by a carriage return, not a newline,
    and flushes at once.  HH, MM and SS are decimal digits that read back as
    [remaining // 3600] (not reduced modulo 24), [(remaining % 3600) // 60]
    and [remaining % 60]; MM and SS have exactly two digits, HH at least
    two, and exactly two below a hundred hours. *)
Theorem time_remaining_display fuel E end_time now k :
  0 < py_round (end_time - now) ->
  let r := py_round (end_time - now) in
  exists hh mm ss rest c,
    countdown_loop (S fuel) E end_time now k
    = (Print ("Time remaining: " ++ hh ++ ":" ++ mm ++ ":" ++ ss) cr
       :: Flush :: rest, c)
    /\ cr = String "013" "" /\ cr <> nl
    /\ all_digits hh = true /\ int hh = r / 3600
    /\ (2 <= String.length hh)%nat
    /\ (r / 3600 < 100 -> String.length hh = 2%nat)
    /\ all_digits mm = true /\ int mm = (r mod 3600) / 60
    /\ String.length mm = 2%nat
    /\ all_digits ss = true /\ int ss = r mod 60
    /\ String.length ss = 2%nat.
Proof.
  intros Hr r. fold r in Hr.
  assert (Hh : 0 <= r / 3600) by (apply Z.div_pos; lia).
  assert (Hm : 0 <= (r mod 3600) / 60 < 60).
  { pose proof (Z.mod_pos_bound r 3600).
    split; [apply Z.div_pos | apply Z.div_lt_upper_bound]; lia. }
  assert (Hs : 0 <= r mod 60 < 60) by (apply Z.mod_pos_bound; lia).
  destruct (format_02d_spec (r / 3600) Hh) as (H1 & H2 & H3 & H4).
  destruct (format_02d_spec ((r mod 3600) / 60)) as (M1 & M2 & M3 & M4); [lia|].
  destruct (format_02d_spec (r mod 60)) as (S1 & S2 & S3 & S4); [lia|].
  exists (format_02d (r / 3600)), (format_02d ((r mod 3600) / 60)),
    (format_02d (r mod 60)).
  rewrite countdown_loop_eq. fold r.
  apply Z.leb_gt in Hr. rewrite Hr.
  destruct (sleep_result E k) as [extra|].
  - destruct (countdown_loop fuel E end_time _ (S k)) as [evs c].
    exists (Sleep (Z.min 1 r) :: evs), c.
    repeat split; auto; try discriminate; try (apply M4; lia); apply S4; lia.
  - exists [Sleep (Z.min 1 r)], (Raise ExKeyboardInterrupt).
    repeat split; auto; try discriminate; try (apply M4; lia); apply S4; lia.
Qed.

Lemma time_remaining_display_witness :
  exists hh mm ss rest c,
    countdown_loop 1 Examples.ideal (1000 + 90061) 1000 0
    = (Print ("Time remaining: " ++ hh ++ ":" ++ mm ++ ":" ++ ss) cr
       :: Flush :: rest, c)
    /\ cr = String "013" "" /\ cr <> nl
    /\ all_digits hh = true /\ int hh = 90061 / 3600
    /\ (2 <= String.length hh)%nat
    /\ (90061 / 3600 < 100 -> String.length hh = 2%nat)
    /\ all_digits mm = true /\ int mm = (90061 mod 3600) / 60
    /\ String.length mm = 2%nat
    /\ all_digits ss = true /\ int ss = 90061 mod 60
    /\ String.length ss = 2%nat.
Proof.
  apply (time_remaining_display 0 Examples.ideal (1000 + 90061) 1000 0).
  reflexivity.
Defined.

End CountdownFacts.

(** ** Traces *)

Module TraceFacts.

Lemma count_sleeps_app (a b : list event) :
  count_sleeps (a ++ b) = (count_sleeps a + count_sleeps b)%nat.
Proof. unfold count_sleeps. now rewrite filter_app, length_app. Qed.

Lemma count_runs_app (a b : list event) :
  count_runs (a ++ b) = (count_runs a + count_runs b)%nat.
Proof. unfold count_runs. now rewrite filter_app, length_app. Qed.

(** The [while] loop launches nothing. *)
Lemma countdown_loop_no_runs fuel E end_time :
  forall now k, count_runs (fst (countdown_loop fuel E end_time now k)) = 0%nat.
Proof.
  induction fuel as [|fuel IH]; intros now k; [reflexivity|].
  rewrite CountdownFacts.countdown_loop_eq.
  destruct (_ <=? 0); [reflexivity|].
  destruct (sleep_result E k) as [extra|]; [|reflexivity].
  specialize (IH (now + inject_Z (Z.min 1 (py_round (end_time - now))) + extra)%Q
                (S k)).
  destruct (countdown_loop fuel E end_time _ (S k)) as [evs c].
  cbn [fst] in *. rewrite count_runs_app, IH. reflexivity.
Qed.

Lemma countdown_no_runs fuel E seconds :
  count_runs (fst (countdown fuel E seconds)) = 0%nat.
Proof.
  unfold countdown.
  pose proof (countdown_loop_no_runs fuel E
                (start_time E + inject_Z seconds)%Q (start_time E) 0) as H.
  destruct (countdown_loop fuel E _ _ 0) as [evs c]. cbn [fst] in H.
  destruct c as [[]|[]|]; cbn [fst]; try exact H.
  change (count_runs (evs ++ [Print (String LF "Timer cancelled by user.") nl])
          = 0%nat).
  rewrite count_runs_app, H. reflexivity.
Qed.

(** The playback loop never sleeps. *)
Lemma play_loop_no_sleeps E todo :
  forall i, count_sleeps (fst (play_loop E i todo)) = 0%nat.
Proof.
  induction todo as [|todo IH]; intros i; [reflexivity|]. cbn [play_loop].
  destruct (run_result E i) as [| |rc e [text|msg]| |e]; try reflexivity.
  specialize (IH (S i)). destruct (play_loop E (S i) todo) as [evs c].
  exact IH.
Qed.

Lemma play_sound_macos_no_sleeps E repeat_count :
  count_sleeps (fst (play_sound_macos E repeat_count)) = 0%nat.
Proof.
  unfold play_sound_macos.
  pose proof (play_loop_no_sleeps E (Z.to_nat repeat_count) 0) as H.
  destruct (play_loop E 0 _) as [evs c]. cbn [fst] in H.
  destruct c as [[]|e|]; cbn [fst]; try exact H.
  change (count_sleeps (evs ++ [Print "Finished playing sound." nl]) = 0%nat).
  rewrite count_sleeps_app, H. reflexivity.
Qed.

Lemma except_clauses_quiet (c : completion unit) :
  count_sleeps (fst (except_clauses c)) = 0%nat
  /\ count_runs (fst (except_clauses c)) = 0%nat.
Proof. destruct c as [[]|[]|]; split; reflexivity. Qed.

End TraceFacts.

(** ** The script as a whole, and interrupts *)

Module MainFacts.
Import TraceFacts.

(** The three ways through the [try] block. *)
Lemma main_inv fuel E x tr e :
  main fuel E x = (tr, e) ->
  (exists msg,
      parse_time x = ValueError msg
      /\ tr = [Print ("Error: " ++ msg) nl; PrintUsage] /\ e = Exit 1)
  \/ (exists n cev cc,
        parse_time x = Ok n /\ countdown fuel E n = (cev, cc)
        /\ (forall u, cc <> Return u)
        /\ tr = (cev ++ fst (except_clauses cc))%list
        /\ e = snd (except_clauses cc))
  \/ (exists n cev pev pc,
        parse_time x = Ok n /\ countdown fuel E n = (cev, Return tt)
        /\ play_sound_macos E 10 = (pev, pc)
        /\ tr = ((cev ++ pev) ++ fst (except_clauses pc))%list
        /\ e = snd (except_clauses pc)).
Proof.
  unfold main, main_body. intros H.
  destruct (parse_time x) as [n|msg].
  - right. destruct (countdown fuel E n) as [cev cc] eqn:Hc.
    destruct cc as [[]|ex|].
    + right. destruct (play_sound_macos E 10) as [pev pc] eqn:Hp.
      exists n, cev, pev, pc.
      destruct (except_clauses pc) as [hev e']. inversion H; subst.
      repeat split; auto.
    + left. exists n, cev, (Raise ex).
      destruct (except_clauses (Raise ex)) as [hev e']. inversion H; subst.
      repeat split; auto. discriminate.
    + left. exists n, cev, OutOfFuel. inversion H; subst.
      repeat split; auto. discriminate.
  - left. exists msg. inversion H; subst. repeat split; auto.
Qed.

Lemma count_sleeps_tick (r : Z) : count_sleeps (tick_events r) = 1%nat.
Proof. reflexivity. Qed.

Lemma count_sleeps_tick_cons a b d (evs : list event) :
  count_sleeps (Print a b :: Flush :: Sleep d :: evs) = S (count_sleeps evs).
Proof. reflexivity. Qed.

(** If the loop entered its sleep number [j] and the interrupt came during
    it, the loop ended there, with KeyboardInterrupt. *)
Lemma countdown_loop_interrupted E end_time fuel :
  forall now k j evs c,
    countdown_loop fuel E end_time now k = (evs, c) ->
    (k <= j)%nat -> (j - k < count_sleeps evs)%nat ->
    sleep_result E j = None ->
    c = Raise ExKeyboardInterrupt
    /\ count_sleeps evs = S (j - k)
    /\ exists pre d, evs = (pre ++ [Sleep d])%list.
Proof.
  induction fuel as [|fuel IH]; intros now k j evs c H Hkj Hj Hnone.
  - inversion H; subst. cbn in Hj. lia.
  - rewrite CountdownFacts.countdown_loop_eq in H.
    destruct (_ <=? 0).
    { inversion H; subst. cbn in Hj. lia. }
    destruct (sleep_result E k) as [extra|] eqn:Hs.
    + destruct (countdown_loop fuel E end_time _ (S k)) as [evs' c'] eqn:Hrec.
      injection H as <- <-.
      rewrite count_sleeps_tick_cons in *.
      assert (j <> k) by congruence.
      destruct (IH _ _ j _ _ Hrec) as (Hc & Hn & pre & d & Hpre);
        auto; try lia.
      repeat split; auto; [lia|].
      exists (tick_events (py_round (end_time - now)) ++ pre)%list, d.
      now rewrite Hpre.
    + injection H as <- <-. rewrite count_sleeps_tick in *.
      repeat split; auto; [f_equal; lia|].
      now exists [Print ("Time remaining: "
                         ++ time_str (py_round (end_time - now))) cr; Flush],
        (Z.min 1 (py_round (end_time - now))).
Qed.

Lemma countdown_interrupted fuel E n j tr c :
  countdown fuel E n = (tr, c) ->
  (j < count_sleeps tr)%nat -> sleep_result E j = None ->
  c = Raise (ExSystemExit 0)
  /\ exists pre d,
      tr = (pre ++ [Sleep d;
                    Print (String LF "Timer cancelled by user.") nl])%list.
Proof.
  unfold countdown. intros H Hj Hnone.
  destruct (countdown_loop fuel E _ _ 0) as [evs c0] eqn:Hl.
  assert (Hcount : count_sleeps tr = count_sleeps evs).
  { destruct c0 as [[]|[]|]; inversion H; subst; try reflexivity.
    change (count_sleeps (evs ++ [Print (String LF "Timer cancelled by user.") nl])
            = count_sleeps evs).
    rewrite count_sleeps_app. cbn. lia. }
  destruct (countdown_loop_interrupted _ _ _ _ _ j _ _ Hl)
    as (-> & _ & pre & d & ->); auto; try lia.
  inversion H; subst. split; auto.
  exists (Print ("Timer set for " ++ Text.str n ++ " seconds.") nl :: pre), d.
  cbn [app]. now rewrite <- app_assoc.
Qed.

(** If playback number [j] was launched and the interrupt came during it,
    the loop ended there, with a clean exit. *)
Lemma play_loop_interrupted E todo :
  forall i j evs c,
    play_loop E i todo = (evs, c) ->
    (i <= j)%nat -> (j - i < count_runs evs)%nat ->
    run_result E j = Interrupted ->
    c = Raise (ExSystemExit 0)
    /\ exists pre,
        evs = (pre ++ [RunStart afplay; RunEnd;
                       Print (String LF "Sound playback interrupted by user.")
                         nl])%list.
Proof.
  induction todo as [|todo IH]; intros i j evs c H Hij Hj Hint.
  - inversion H; subst. cbn in Hj. lia.
  - cbn [play_loop] in H.
    destruct (run_result E i) as [| |rc es [text|msg]| |es] eqn:Hr.
    + destruct (play_loop E (S i) todo) as [evs' c'] eqn:Hrec.
      inversion H; subst. clear H.
      change (j - i < S (count_runs evs'))%nat in Hj.
      assert (j <> i) by congruence.
      destruct (IH (S i) j _ _ Hrec) as (Hc & pre & Hpre); auto; try lia.
      split; auto. exists (RunStart afplay :: RunEnd :: pre).
      now rewrite Hpre.
    + inversion H; subst. cbn in Hj.
      assert (j = i) by lia. congruence.
    + inversion H; subst. cbn in Hj.
      assert (j = i) by lia. congruence.
    + inversion H; subst. cbn in Hj.
      assert (j = i) by lia. congruence.
    + inversion H; subst. split; auto. now exists [].
    + inversion H; subst. cbn in Hj.
      assert (j = i) by lia. congruence.
Qed.

Lemma play_sound_macos_interrupted E repeat_count j tr c :
  play_sound_macos E repeat_count = (tr, c) ->
  (j < count_runs tr)%nat -> run_result E j = Interrupted ->
  c = Raise (ExSystemExit 0)
  /\ exists pre,
      tr = (pre ++ [RunStart afplay; RunEnd;
                    Print (String LF "Sound playback interrupted by user.")
                      nl])%list.
Proof.
  unfold play_sound_macos. intros H Hj Hint.
  destruct (play_loop E 0 _) as [evs c0] eqn:Hl.
  assert (Hcount : count_runs tr = count_runs evs).
  { destruct c0 as [[]|ex|]; inversion H; subst; try reflexivity.
    change (count_runs (evs ++ [Print "Finished playing sound." nl])
            = count_runs evs).
    rewrite count_runs_app. cbn. lia. }
  destruct (play_loop_interrupted _ _ _ j _ _ Hl) as (-> & pre & ->);
    auto; try lia.
  inversion H; subst. split; auto.
  eexists (_ :: pre). reflexivity.
Qed.

(** C3: in every run in which a KeyboardInterrupt arrives at a blocking
    point, the process prints a cancellation message as the last thing it
    does and exits with status 0.  If it arrives during a sleep of the
    countdown that was entered, the run ends with that sleep and [Timer
    cancelled by user.], and the playback command is never launched; if it
    arrives during a playback that was launched, the run ends with that
    playback and [Sound playback interrupted by user.]. *)
Theorem interrupt_exits_cleanly fuel E x tr e :
  main fuel E x = (tr, e) ->
  (forall j, (j < count_sleeps tr)%nat -> sleep_result E j = None ->
     e = Exit 0 /\ count_runs tr = 0%nat
     /\ exists pre d,
         tr = (pre ++ [Sleep d;
                       Print (String LF "Timer cancelled by user.") nl])%list)
  /\ (forall i, (i < count_runs tr)%nat -> run_result E i = Interrupted ->
      e = Exit 0
      /\ exists pre,
          tr = (pre ++ [RunStart afplay; RunEnd;
                        Print (String LF "Sound playback interrupted by user.")
                          nl])%list).
Proof.
  intros H.
  apply main_inv in H
    as [(msg & Hp & -> & ->)
       |[(n & cev & cc & Hp & Hc & Hne & -> & ->)
        |(n & cev & pev & pc & Hp & Hc & Hpl & -> & ->)]].
  - split; intros j Hj; cbn in Hj; lia.
  - destruct (except_clauses_quiet cc) as [Hs Hr].
    pose proof (countdown_no_runs fuel E n) as Hcr. rewrite Hc in Hcr.
    cbn [fst] in Hcr.
    split; intros j Hj Hnone.
    + rewrite count_sleeps_app, Hs, Nat.add_0_r in Hj.
      destruct (countdown_interrupted _ _ _ _ _ _ Hc Hj Hnone)
        as (-> & pre & d & ->).
      cbn [except_clauses fst snd]. rewrite app_nil_r.
      repeat split; eauto.
    + rewrite count_runs_app, Hr, Hcr in Hj. lia.
  - destruct (except_clauses_quiet pc) as [Hs Hr].
    pose proof (countdown_no_runs fuel E n) as Hcr. rewrite Hc in Hcr.
    pose proof (play_sound_macos_no_sleeps E 10) as Hps. rewrite Hpl in Hps.
    cbn [fst] in Hcr, Hps.
    split; intros j Hj Hnone.
    + rewrite !count_sleeps_app, Hs, Hps, !Nat.add_0_r in Hj.
      destruct (countdown_interrupted _ _ _ _ _ _ Hc Hj Hnone) as (Habs & _).
      discriminate.
    + rewrite !count_runs_app, Hr, Hcr, Nat.add_0_r in Hj. cbn [Nat.add] in Hj.
      destruct (play_sound_macos_interrupted _ _ _ _ _ Hpl Hj Hnone)
        as (-> & pre & ->).
      cbn [except_clauses fst snd]. rewrite app_nil_r.
      split; auto. exists (cev ++ pre)%list. now rewrite app_assoc.
Qed.

Lemma interrupt_exits_cleanly_witness :
  (snd (main 10 Examples.ctrl_c_while_counting "5s") = Exit 0
   /\ count_runs (fst (main 10 Examples.ctrl_c_while_counting "5s")) = 0%nat
   /\ exists pre d,
       fst (main 10 Examples.ctrl_c_while_counting "5s")
       = (pre ++ [Sleep d;
                  Print (String LF "Timer cancelled by user.") nl])%list)
  /\ (snd (main 10 Examples.ctrl_c_while_playing "1s") = Exit 0
      /\ exists pre,
          fst (main 10 Examples.ctrl_c_while_playing "1s")
          = (pre ++ [RunStart afplay; RunEnd;
                     Print (String LF "Sound playback interrupted by user.")
                       nl])%list).
Proof.
  split.
  - apply (proj1 (interrupt_exits_cleanly 10 Examples.ctrl_c_while_counting
                    "5s" _ _ (surjective_pairing _)) 2%nat).
    + vm_compute. lia.
    + reflexivity.
  - apply (proj2 (interrupt_exits_cleanly 10 Examples.ctrl_c_while_playing
                    "1s" _ _ (surjective_pairing _)) 3%nat).
    + vm_compute. lia.
    + reflexivity.
Defined.



End MainFacts.

(** ** [play_sound_macos] *)

Module NotifierFacts.
Import TraceFacts.

Lemma plays_succ (n : nat) : plays (S n) = RunStart afplay :: RunEnd :: plays n.
Proof. reflexivity. Qed.

Lemma count_runs_plays (n : nat) : count_runs (plays n) = n.
Proof.
  induction n as [|n IH]; [reflexivity|].
  rewrite plays_succ. change (S (count_runs (plays n)) = S n). now rewrite IH.
Qed.

(** While the playbacks succeed the loop goes on to the next one. *)
Lemma play_loop_prefix E (n : nat) :
  forall i todo,
    (forall j, (i <= j < i + n)%nat -> run_result E j = Completed) ->
    play_loop E i (n + todo)
    = ((plays n ++ fst (play_loop E (i + n) todo))%list,
       snd (play_loop E (i + n) todo)).
Proof.
  induction n as [|n IH]; intros i todo Hok.
  - rewrite Nat.add_0_r. cbn [Nat.add plays repeat List.concat app].
    now destruct (play_loop E i todo).
  - cbn [Nat.add play_loop]. rewrite (Hok i) by lia.
    rewrite (IH (S i) todo) by (intros j Hj; apply Hok; lia).
    rewrite plays_succ, Nat.add_succ_r. reflexivity.
Qed.

Lemma play_loop_all_completed E (n : nat) :
  (forall j, (j < n)%nat -> run_result E j = Completed) ->
  play_loop E 0 n = (plays n, Return tt).
Proof.
  intros Hok. rewrite <- (Nat.add_0_r n) at 1.
  rewrite play_loop_prefix by (intros j Hj; apply Hok; lia).
  cbn [play_loop fst snd]. now rewrite app_nil_r.
Qed.

(** C5: called with 10 repeats, when every playback succeeds the notifier
    launches the playback command exactly 10 times, each launch after the
    previous playback has ended, and nothing else between its first and
    its last message. *)
Theorem ten_plays_in_sequence (E : oracle) :
  (forall i, (i < 10)%nat -> run_result E i = Completed) ->
  play_sound_macos E 10
  = ((Print "Playing sound '/System/Library/Sounds/Ping.aiff' 10 times." nl
      :: plays 10 ++ [Print "Finished playing sound." nl])%list, Return tt)
  /\ count_runs (fst (play_sound_macos E 10)) = 10%nat
  /\ sequential false (fst (play_sound_macos E 10)) = true.
Proof.
  intros Hok.
  assert (H : play_sound_macos E 10
              = ((Print "Playing sound '/System/Library/Sounds/Ping.aiff' 10 times." nl
                  :: plays 10 ++ [Print "Finished playing sound." nl])%list,
                 Return tt)).
  { unfold play_sound_macos. change (Z.to_nat 10) with 10%nat.
    now rewrite (play_loop_all_completed E 10 Hok). }
  rewrite H. repeat split; reflexivity.
Qed.

Lemma ten_plays_in_sequence_witness :
  play_sound_macos Examples.ideal 10
  = ((Print "Playing sound '/System/Library/Sounds/Ping.aiff' 10 times." nl
      :: plays 10 ++ [Print "Finished playing sound." nl])%list, Return tt)
  /\ count_runs (fst (play_sound_macos Examples.ideal 10)) = 10%nat
  /\ sequential false (fst (play_sound_macos Examples.ideal 10)) = true.
Proof.
  apply (ten_plays_in_sequence Examples.ideal). intros i _. reflexivity.
Defined.

(** C6 (what the code does when a failed playback leaves unreadable
    diagnostics): the third playback exits with status 1 and its captured
    standard error is not valid UTF-8.  Decoding it inside the handler
    raises UnicodeDecodeError, which leaves [play_sound_macos]; being a
    ValueError it is reported by [__main__] as a bad duration, with the
    usage line, and the process exits with status 1. *)
Theorem unreadable_stderr_exits_1 :
  snd (play_sound_macos Examples.third_fails_unreadable 10)
  = Raise (ExUnicodeDecodeError
             "'utf-8' codec can't decode byte 0xff in position 0: invalid start byte")
  /\ count_runs (fst (play_sound_macos Examples.third_fails_unreadable 10))
     = 3%nat
  /\ main 2 Examples.third_fails_unreadable "1s"
     = ((Print "Timer set for 1 seconds." nl
         :: tick_events 1
         ++ Print (String LF "Time's up!") nl
         :: Print "Playing sound '/System/Library/Sounds/Ping.aiff' 10 times." nl
         :: plays 3
         ++ [Print ("Error playing sound (iteration 3): "
                    ++ Examples.afplay_status_1) nl;
             Print "Error: 'utf-8' codec can't decode byte 0xff in position 0: invalid start byte" nl;
             PrintUsage])%list,
        Exit 1).
Proof. repeat split; reflexivity. Qed.

(** C10 (what the code does when a failed playback leaves unreadable
    diagnostics): [play_sound_macos] does not return; it raises
    UnicodeDecodeError past its boundary, and [Finished playing sound.] is
    not printed. *)
Theorem unreadable_stderr_escapes :
  (forall u, snd (play_sound_macos Examples.third_fails_unreadable 10)
             <> Return u)
  /\ (forall code, snd (play_sound_macos Examples.third_fails_unreadable 10)
                   <> Raise (ExSystemExit code))
  /\ ~ In (Print "Finished playing sound." nl)
         (fst (play_sound_macos Examples.third_fails_unreadable 10)).
Proof.
  split; [|split].
  - intros u H. vm_compute in H. discriminate H.
  - intros code H. vm_compute in H. discriminate H.
  - intros H. vm_compute in H.
    repeat (destruct H as [H|H]; [discriminate H|]). exact H.
Qed.

Lemma play_loop_sequential E (todo : nat) :
  forall i tl,
    sequential false tl = true ->
    sequential false (fst (play_loop E i todo) ++ tl) = true.
Proof.
  induction todo as [|todo IH]; intros i tl Htl; [exact Htl|].
  cbn [play_loop].
  destruct (run_result E i) as [| |rc es [text|msg]| |es]; try exact Htl.
  specialize (IH (S i) tl Htl).
  destruct (play_loop E (S i) todo) as [evs c]. exact IH.
Qed.

Lemma play_loop_count E (todo : nat) :
  forall i, (count_runs (fst (play_loop E i todo)) <= todo)%nat.
Proof.
  induction todo as [|todo IH]; intros i; [cbn; lia|].
  cbn [play_loop].
  destruct (run_result E i) as [| |rc es [text|msg]| |es]; try (cbn; lia).
  specialize (IH (S i)).
  destruct (play_loop E (S i) todo) as [evs c].
  change (S (count_runs evs) <= S todo)%nat. cbn [fst] in IH. lia.
Qed.

(** In every environment and for every repeat count the notifier launches
    the playback command at most that many times, and never while a
    previous playback is still under way. *)
Theorem notifier_never_overlaps (E : oracle) (repeat_count : Z) :
  sequential false (fst (play_sound_macos E repeat_count)) = true
  /\ (count_runs (fst (play_sound_macos E repeat_count))
      <= Z.to_nat repeat_count)%nat.
Proof.
  unfold play_sound_macos.
  pose proof (play_loop_count E (Z.to_nat repeat_count) 0) as Hc.
  pose proof (play_loop_sequential E (Z.to_nat repeat_count) 0
                [Print "Finished playing sound." nl] eq_refl) as H1.
  pose proof (play_loop_sequential E (Z.to_nat repeat_count) 0 [] eq_refl) as H2.
  rewrite app_nil_r in H2.
  destruct (play_loop E 0 (Z.to_nat repeat_count)) as [evs c].
  cbn [fst] in *.
  destruct c as [[]|ex|]; cbn [fst]; split; auto.
  change (count_runs (evs ++ [Print "Finished playing sound." nl])
          <= Z.to_nat repeat_count)%nat.
  rewrite count_runs_app. cbn. lia.
Qed.

Lemma play_loop_returns E (todo : nat) :
  (forall i, run_result E i <> Interrupted) ->
  (forall i rc es msg, run_result E i <> CalledProcessError rc es (NotUtf8 msg)) ->
  forall i, snd (play_loop E i todo) = Return tt.
Proof.
  intros Hi Hd. induction todo as [|todo IH]; intros i; [reflexivity|].
  cbn [play_loop].
  destruct (run_result E i) as [| |rc es [text|msg]| |es] eqn:Hr;
    try reflexivity.
  - specialize (IH (S i)). now destruct (play_loop E (S i) todo).
  - now apply Hd in Hr.
  - now apply Hi in Hr.
Qed.

(** Whenever [play_sound_macos] returns, the last thing it printed is
    [Finished playing sound.]; it returns whenever no playback is
    interrupted and no failed playback leaves unreadable diagnostics; and
    the message is no sign that every repeat played: with no [afplay] on
    the system it follows a single failed launch. *)
Theorem finished_message_on_return :
  (forall E repeat_count tr u,
      play_sound_macos E repeat_count = (tr, Return u) ->
      exists pre, tr = (pre ++ [Print "Finished playing sound." nl])%list)
  /\ (forall E repeat_count,
        (forall i, run_result E i <> Interrupted) ->
        (forall i rc es msg,
            run_result E i <> CalledProcessError rc es (NotUtf8 msg)) ->
        snd (play_sound_macos E repeat_count) = Return tt)
  /\ play_sound_macos Examples.not_macos 10
     = ([Print "Playing sound '/System/Library/Sounds/Ping.aiff' 10 times." nl;
         RunStart afplay; RunEnd;
         Print "Error: 'afplay' command not found. Is this a macOS system?" nl;
         Print "Finished playing sound." nl], Return tt).
Proof.
  split; [|split; [|reflexivity]].
  - intros E repeat_count tr u. unfold play_sound_macos.
    destruct (play_loop E 0 _) as [evs c].
    destruct c as [[]|ex|]; intros H; inversion H; subst.
    eexists (_ :: evs). reflexivity.
  - intros E repeat_count Hi Hd. unfold play_sound_macos.
    pose proof (play_loop_returns E (Z.to_nat repeat_count) Hi Hd 0) as H.
    destruct (play_loop E 0 _) as [evs c]. cbn [snd] in H. now subst c.
Qed.

(** When playback number [k] (counted from 0) is the first not to succeed,
    because [afplay] is not found or because it exits with a non-zero
    status leaving readable diagnostics, the notifier launches nothing
    after it, prints its report (with the diagnostics, stripped), prints
    [Finished playing sound.] and returns. *)
Theorem failure_stops_notifier (E : oracle) (k : nat) (repeat_count : Z) :
  (k < Z.to_nat repeat_count)%nat ->
  (forall j, (j < k)%nat -> run_result E j = Completed) ->
  (run_result E k = FileNotFound
   \/ exists rc es text, run_result E k = CalledProcessError rc es (Utf8 text)) ->
  exists report,
    play_sound_macos E repeat_count
    = ((Print ("Playing sound '" ++ sound_file ++ "' " ++ Text.str repeat_count
               ++ " times.") nl
        :: plays k ++ RunStart afplay :: RunEnd :: report
        ++ [Print "Finished playing sound." nl])%list, Return tt)
    /\ (run_result E k = FileNotFound ->
        report
        = [Print "Error: 'afplay' command not found. Is this a macOS system?" nl])
    /\ (forall rc es text,
          run_result E k = CalledProcessError rc es (Utf8 text) ->
          report
          = [Print ("Error playing sound (iteration "
                    ++ Text.str (Z.of_nat k + 1) ++ "): " ++ es) nl;
             Print ("Stderr: " ++ strip text) nl])
    /\ count_runs (fst (play_sound_macos E repeat_count)) = S k.
Proof.
  intros Hk Hok Hfail.
  assert (Hsplit : Z.to_nat repeat_count
                   = (k + S (Z.to_nat repeat_count - S k))%nat) by lia.
  assert (Hcount : forall report,
             count_runs (Print ("Playing sound '" ++ sound_file ++ "' "
                                ++ Text.str repeat_count ++ " times.") nl
                         :: plays k ++ RunStart afplay :: RunEnd :: report
                         ++ [Print "Finished playing sound." nl])
             = (k + S (count_runs report))%nat).
  { intros report.
    change (count_runs (plays k ++ RunStart afplay :: RunEnd :: report
                        ++ [Print "Finished playing sound." nl])
            = (k + S (count_runs report))%nat).
    rewrite count_runs_app, count_runs_plays. f_equal.
    change (S (count_runs (report ++ [Print "Finished playing sound." nl]))
            = S (count_runs report)).
    rewrite count_runs_app. cbn. lia. }
  assert (Hloop : play_loop E 0 (Z.to_nat repeat_count)
                  = ((plays k
                      ++ fst (play_loop E k
                                (S (Z.to_nat repeat_count - S k))))%list,
                     snd (play_loop E k (S (Z.to_nat repeat_count - S k))))).
  { rewrite Hsplit at 1.
    now rewrite play_loop_prefix by (intros j Hj; apply Hok; lia). }
  unfold play_sound_macos. rewrite Hloop. cbn [play_loop].
  destruct Hfail as [Hf | (rc & es & text & Hf)]; rewrite Hf; cbn [fst snd];
    rewrite <- app_assoc.
  - exists [Print "Error: 'afplay' command not found. Is this a macOS system?" nl].
    split; [reflexivity|]. split; [reflexivity|]. split.
    + intros rc es text H. discriminate H.
    + etransitivity;
        [exact (Hcount [Print "Error: 'afplay' command not found. Is this a macOS system?" nl])
        | cbn; lia].
  - exists [Print ("Error playing sound (iteration " ++ iteration k ++ "): "
                   ++ es) nl;
            Print ("Stderr: " ++ strip text) nl].
    split; [reflexivity|]. split; [intros H; discriminate H|]. split.
    + intros rc' es' text' H. injection H as <- <- <-.
      unfold iteration. now rewrite Nat2Z.inj_succ.
    + etransitivity;
        [exact (Hcount [Print ("Error playing sound (iteration "
                               ++ iteration k ++ "): " ++ es) nl;
                        Print ("Stderr: " ++ strip text) nl])
        | cbn; lia].
Qed.

Lemma failure_stops_notifier_witness :
  exists report,
    play_sound_macos Examples.third_fails 10
    = ((Print ("Playing sound '" ++ sound_file ++ "' " ++ Text.str 10
               ++ " times.") nl
        :: plays 2 ++ RunStart afplay :: RunEnd :: report
        ++ [Print "Finished playing sound." nl])%list, Return tt)
    /\ (run_result Examples.third_fails 2 = FileNotFound ->
        report
        = [Print "Error: 'afplay' command not found. Is this a macOS system?" nl])
    /\ (forall rc es text,
          run_result Examples.third_fails 2
          = CalledProcessError rc es (Utf8 text) ->
          report
          = [Print ("Error playing sound (iteration "
                    ++ Text.str (Z.of_nat 2 + 1) ++ "): " ++ es) nl;
             Print ("Stderr: " ++ strip text) nl])
    /\ count_runs (fst (play_sound_macos Examples.third_fails 10)) = 3%nat.
Proof.
  apply (failure_stops_notifier Examples.third_fails 2 10).
  - vm_compute. lia.
  - intros [|[|j]] Hj; [reflexivity | reflexivity | lia].
  - right. eexists _, _, _. reflexivity.
Defined.

(** How the playback loop can end: it returns, or exits cleanly on an
    interrupt, or a failed playback left diagnostics that do not decode. *)
Lemma play_loop_outcomes E (todo : nat) :
  forall i,
    snd (play_loop E i todo) = Return tt
    \/ snd (play_loop E i todo) = Raise (ExSystemExit 0)
    \/ exists j rc es msg,
         run_result E j = CalledProcessError rc es (NotUtf8 msg).
Proof.
  induction todo as [|todo IH]; intros i; [now left|]. cbn [play_loop].
  destruct (run_result E i) as [| |rc es [text|msg]| |es] eqn:Hr; auto.
  - specialize (IH (S i)). now destruct (play_loop E (S i) todo).
  - right. right. now exists i, rc, es, msg.
Qed.

(** Once the countdown has completed, the process exits with status 0
    whatever the playbacks do, as long as no failed playback leaves
    diagnostics that do not decode. *)
Theorem exit_0_after_countdown fuel E x n :
  parse_time x = Ok n ->
  snd (countdown fuel E n) = Return tt ->
  (forall j rc es msg,
      run_result E j <> CalledProcessError rc es (NotUtf8 msg)) ->
  snd (main fuel E x) = Exit 0.
Proof.
  intros Hp Hc Hd. unfold main, main_body. rewrite Hp.
  destruct (countdown fuel E n) as [cev cc]. cbn [snd] in Hc. subst cc.
  unfold play_sound_macos.
  pose proof (play_loop_outcomes E (Z.to_nat 10) 0) as H.
  destruct (play_loop E 0 (Z.to_nat 10)) as [evs c]. cbn [snd] in H.
  destruct H as [-> | [-> | (j & rc & es & msg & H)]]; try reflexivity.
  now apply Hd in H.
Qed.

Lemma exit_0_after_countdown_witness :
  snd (main 2 Examples.third_fails "1s") = Exit 0.
Proof.
  apply (exit_0_after_countdown 2 Examples.third_fails "1s" 1).
  - reflexivity.
  - reflexivity.
  - intros j rc es msg H. unfold Examples.third_fails in H. cbn in H.
    destruct (j =? 2)%nat; discriminate H.
Defined.

End NotifierFacts.


(** ** More on [countdown] *)

Module CountdownProps.
Import Text TextFacts CountdownFacts TraceFacts.

Lemma py_round_bounds (x : Q) : Qfloor x <= py_round x <= Qfloor x + 1.
Proof.
  unfold py_round.
  destruct (Qcompare _ _); [destruct (Z.even _)| |]; lia.
Qed.

(** [round] never reverses the order of two numbers. *)
Lemma py_round_mono (x y : Q) : (x <= y)%Q -> py_round x <= py_round y.
Proof.
  intros H.
  pose proof (Qfloor_resp_le x y H) as Hf.
  pose proof (py_round_bounds x) as Bx. pose proof (py_round_bounds y) as By.
  destruct (Z.eq_dec (Qfloor x) (Qfloor y)) as [E|E]; [|lia].
  unfold py_round. rewrite E.
  destruct (Qcompare_spec (x - inject_Z (Qfloor y)) (1 # 2)) as [Cx|Cx|Cx];
    destruct (Qcompare_spec (y - inject_Z (Qfloor y)) (1 # 2)) as [Cy|Cy|Cy];
    try (destruct (Z.even (Qfloor y))); try lia; lra.
Qed.

Lemma py_round_compat (x y : Q) : (x == y)%Q -> py_round x = py_round y.
Proof.
  intros H. apply Z.le_antisymm; apply py_round_mono; rewrite H; apply Qle_refl.
Qed.

Lemma py_round_inject_Z (n : Z) : py_round (inject_Z n) = n.
Proof.
  unfold py_round. rewrite Qfloor_Z.
  destruct (Qcompare_spec (inject_Z n - inject_Z n) (1 # 2)) as [C|C|C];
    [lra | reflexivity | lra].
Qed.

(** [round(x) <= 0] exactly when [x] is at most one half: a tie goes to
    the even neighbour, which for one half is zero. *)
Lemma py_round_nonpos_iff (x : Q) : py_round x <= 0 <-> (x <= 1 # 2)%Q.
Proof.
  pose proof (Qfloor_le x) as Hlo. pose proof (Qlt_floor x) as Hhi.
  pose proof (py_round_bounds x) as B.
  split; intros H.
  - destruct (Qlt_le_dec (1 # 2) x) as [Hx|Hx]; auto. exfalso.
    assert (Hf : 0 <= Qfloor x).
    { rewrite <- (Qfloor_Z 0). apply Qfloor_resp_le.
      change (inject_Z 0) with 0%Q. lra. }
    assert (Hf0 : Qfloor x = 0) by lia.
    unfold py_round in H. rewrite Hf0 in *.
    change (inject_Z 0) with 0%Q in *.
    destruct (Qcompare_spec (x - 0) (1 # 2)) as [C|C|C];
      [lra | lra | lia].
  - assert (Hf : Qfloor x <= 0).
    { change 0 with (Qfloor (1 # 2)). now apply Qfloor_resp_le. }
    destruct (Z.eq_dec (Qfloor x) 0) as [E|E]; [|lia].
    unfold py_round. rewrite E. change (inject_Z 0) with 0%Q.
    destruct (Qcompare_spec (x - 0) (1 # 2)) as [C|C|C];
      [reflexivity | lia | lra].
Qed.

Lemma loop_exit_iff fuel E end_time now k :
  (end_time - now <= 1 # 2)%Q
  <-> countdown_loop (S fuel) E end_time now k = ([times_up], Return tt).
Proof.
  rewrite countdown_loop_eq, <- py_round_nonpos_iff. split.
  - intros H. apply Z.leb_le in H. now rewrite H.
  - intros H. destruct (py_round (end_time - now) <=? 0) eqn:Hz.
    + now apply Z.leb_le.
    + exfalso. destruct (sleep_result E k) as [extra|].
      * destruct (countdown_loop fuel E end_time _ (S k)) as [evs c].
        discriminate H.
      * discriminate H.
Qed.

(** A pass of the loop ends it exactly when the time left is at most half
    a second: [Time's up!] can come up to half a second before the
    deadline, and no earlier. *)
Theorem loop_ends_within_half_second fuel E end_time now k :
  (end_time - now <= 1 # 2)%Q
  <-> countdown_loop (S fuel) E end_time now k = ([times_up], Return tt).
Proof. apply loop_exit_iff. Qed.

(** Called with a duration that is not positive, [countdown] announces the
    duration and that the time is up, and returns without sleeping. *)
Theorem countdown_of_nothing fuel E seconds :
  seconds <= 0 ->
  countdown (S fuel) E seconds
  = ([Print ("Timer set for " ++ str seconds ++ " seconds.") nl; times_up],
     Return tt).
Proof.
  intros H. unfold countdown.
  assert (Hq : (start_time E + inject_Z seconds - start_time E <= 1 # 2)%Q).
  { assert (inject_Z seconds <= inject_Z 0)%Q by now rewrite <- Zle_Qle.
    change (inject_Z 0) with 0%Q in *. lra. }
  apply (loop_exit_iff fuel E _ _ 0%nat) in Hq.
  now rewrite Hq.
Qed.

Lemma countdown_of_nothing_witness :
  countdown 1 Examples.ctrl_c_while_counting (-5)
  = ([Print "Timer set for -5 seconds." nl; times_up], Return tt).
Proof.
  apply (countdown_of_nothing 0 Examples.ctrl_c_while_counting (-5)).
  discriminate.
Defined.

Lemma in_sleep_tick (r d : Z) : 0 < r -> In (Sleep d) (tick_events r) -> d = 1.
Proof.
  intros Hr [H|[H|[H|[]]]]; try discriminate H. injection H as <-. lia.
Qed.

Lemma countdown_loop_sleeps fuel E end_time :
  forall now k d,
    In (Sleep d) (fst (countdown_loop fuel E end_time now k)) -> d = 1.
Proof.
  induction fuel as [|fuel IH]; intros now k d; [intros []|].
  rewrite countdown_loop_eq.
  destruct (py_round (end_time - now) <=? 0) eqn:Hz.
  { intros [H|[]]. discriminate H. }
  apply Z.leb_gt in Hz.
  destruct (sleep_result E k) as [extra|].
  - specialize (IH (now + inject_Z (Z.min 1 (py_round (end_time - now)))
                    + extra)%Q (S k) d).
    destruct (countdown_loop fuel E end_time _ (S k)) as [evs c].
    cbn [fst] in *. intros H. apply in_app_or in H as [H|H]; auto.
    now apply (in_sleep_tick _ _ Hz).
  - cbn [fst]. now apply in_sleep_tick.
Qed.

(** Whatever the clock and the user do, [countdown] never sleeps for
    anything but one second at a time: [remaining] is a whole number of
    seconds, at least 1 when the loop goes on, so [min(1, remaining)] is
    always 1. *)
Theorem countdown_sleeps_one_second fuel E seconds d :
  In (Sleep d) (fst (countdown fuel E seconds)) -> d = 1.
Proof.
  unfold countdown.
  pose proof (countdown_loop_sleeps fuel E
                (start_time E + inject_Z seconds)%Q (start_time E) 0%nat d) as H.
  destruct (countdown_loop fuel E _ _ 0) as [evs c]. cbn [fst] in H.
  assert (Hcase : forall tl,
             (forall e, In e tl -> e <> Sleep d) ->
             In (Sleep d)
                (Print ("Timer set for " ++ str seconds ++ " seconds.") nl
                 :: evs ++ tl) -> d = 1).
  { intros tl Htl [Hin|Hin]; [discriminate Hin|].
    apply in_app_or in Hin as [Hin|Hin]; auto.
    now apply Htl in Hin. }
  destruct c as [[]|[]|]; cbn [fst]; intros Hin.
  all: try (apply (Hcase []); [intros e []|now rewrite app_nil_r]).
  apply (Hcase [Print (String LF "Timer cancelled by user.") nl]); auto.
  intros e [<-|[]]. discriminate.
Qed.

Lemma countdown_sleeps_one_second_witness : Z.min 1 3 = 1.
Proof.
  apply (countdown_sleeps_one_second 5 Examples.ideal 3 (Z.min 1 3)).
  vm_compute. auto 10.
Defined.

Lemma sleep_exact_step (end_time now extra : Q) (m : nat) :
  (end_time - now == inject_Z (Z.of_nat (S m)))%Q -> (extra == 0)%Q ->
  (end_time - (now + inject_Z 1 + extra) == inject_Z (Z.of_nat m))%Q.
Proof.
  intros H He. rewrite inject_Z_succ in H. change (inject_Z 1) with 1%Q. lra.
Qed.

Lemma countdown_loop_on_time E end_time (m : nat) :
  sleeps_exactly E ->
  forall now k fuel,
    (end_time - now == inject_Z (Z.of_nat m))%Q -> (m < fuel)%nat ->
    countdown_loop fuel E end_time now k
    = ((List.concat (map tick_events (descending m)) ++ [times_up])%list,
       Return tt).
Proof.
  intros Hex. induction m as [|m IH]; intros now k [|fuel] Hm Hf; try lia;
    rewrite countdown_loop_eq, (py_round_compat _ _ Hm), py_round_inject_Z.
  - reflexivity.
  - replace (Z.of_nat (S m) <=? 0) with false by (symmetry; apply Z.leb_gt; lia).
    destruct (Hex k) as (extra & -> & He).
    replace (Z.min 1 (Z.of_nat (S m))) with 1 by lia.
    rewrite (IH _ (S k) fuel (sleep_exact_step _ _ _ _ Hm He)) by lia.
    cbn [descending map List.concat]. now rewrite <- app_assoc.
Qed.


Lemma ideal_sleeps_exactly : sleeps_exactly Examples.ideal.
Proof. intros k. exists 0%Q. split; reflexivity. Defined.


Section LongSleeps.
Variable E : oracle.
Variable end_time : Q.
Hypothesis Hlong : sleeps_long_enough E.

Lemma sleep_long_step (now extra : Q) (r : Z) :
  0 < r -> (0 <= extra)%Q ->
  (end_time - (now + inject_Z (Z.min 1 r) + extra) <= end_time - now - 1)%Q.
Proof.
  intros Hr He. replace (Z.min 1 r) with 1 by lia.
  change (inject_Z 1) with 1%Q. lra.
Qed.

(** With at most [m] seconds to go, fuel above [m] is never used up,
    interrupted or not. *)
Lemma countdown_loop_never_starves (m : nat) :
  forall now k fuel,
    (end_time - now <= inject_Z (Z.of_nat m))%Q -> (m < fuel)%nat ->
    snd (countdown_loop fuel E end_time now k) <> OutOfFuel.
Proof.
  induction m as [|m IH]; intros now k [|fuel] Hm Hf; try lia;
    rewrite countdown_loop_eq; pose proof (py_round_le _ _ Hm) as Hr.
  - cbn in Hr. apply Z.leb_le in Hr. rewrite Hr. discriminate.
  - destruct (py_round (end_time - now) <=? 0) eqn:Hz; [discriminate|].
    apply Z.leb_gt in Hz.
    destruct (sleep_result E k) as [extra|] eqn:Hs; [|discriminate].
    pose proof (sleep_long_step now extra _ Hz (Hlong k extra Hs)) as Hstep.
    specialize (IH (now + inject_Z (Z.min 1 (py_round (end_time - now)))
                    + extra)%Q (S k) fuel).
    destruct (countdown_loop fuel E end_time _ (S k)) as [evs c].
    cbn [snd] in *. apply IH; [|lia].
    rewrite inject_Z_succ in Hm. lra.
Qed.

(** The numbers shown never go up: each is at most the one before (and at
    most what [round] makes of the time left at the start). *)
Lemma countdown_loop_never_rises (m : nat) :
  uninterrupted E ->
  forall now k,
    (end_time - now <= inject_Z (Z.of_nat m))%Q ->
    exists rs,
      Forall (fun r => r <= py_round (end_time - now)) rs
      /\ StronglySorted (fun a b => b <= a) rs
      /\ forall fuel, (m < fuel)%nat ->
           countdown_loop fuel E end_time now k
           = ((List.concat (map tick_events rs) ++ [times_up])%list, Return tt).
Proof.
  intros Hquiet. induction m as [|m IH]; intros now k Hm;
    pose proof (py_round_le _ _ Hm) as Hr.
  - exists []. repeat split; auto; [constructor|].
    intros [|fuel] Hf; [lia|]. rewrite countdown_loop_eq.
    cbn in Hr. apply Z.leb_le in Hr. now rewrite Hr.
  - destruct (py_round (end_time - now) <=? 0) eqn:Hz.
    + exists []. repeat split; auto; [constructor|].
      intros [|fuel] Hf; [lia|]. rewrite countdown_loop_eq. now rewrite Hz.
    + apply Z.leb_gt in Hz.
      destruct (sleep_result E k) as [extra|] eqn:Hs;
        [|now apply Hquiet in Hs].
      pose proof (sleep_long_step now extra _ Hz (Hlong k extra Hs)) as Hstep.
      destruct (IH (now + inject_Z (Z.min 1 (py_round (end_time - now)))
                    + extra)%Q (S k))
        as (rs & Hle & Hsorted & Hrun).
      { rewrite inject_Z_succ in Hm. lra. }
      assert (Hall : Forall (fun r => r <= py_round (end_time - now)) rs).
      { eapply Forall_impl; [|exact Hle]. cbn. intros r Hr'.
        etransitivity; [exact Hr'|]. apply py_round_mono. lra. }
      exists (py_round (end_time - now) :: rs). repeat split.
      * constructor; [lia|exact Hall].
      * constructor; auto.
      * intros [|fuel] Hf; [lia|]. rewrite countdown_loop_eq.
        apply Z.leb_gt in Hz. rewrite Hz, Hs, Hrun by lia.
        cbn [map List.concat]. now rewrite <- app_assoc.
Qed.
End LongSleeps.



End CountdownProps.

(** ** More on [parse_time] *)

Module ParserProps.
Import Text Grammar TextFacts RegexFacts ParseFacts.

Lemma number_format_02d (n : Z) : 0 <= n -> number (format_02d n) = true.
Proof.
  intros Hn. destruct (format_02d_spec n Hn) as (Hd & _ & Hlen & _).
  unfold number. rewrite Hd.
  destruct (format_02d n); [cbn in Hlen; lia | reflexivity].
Qed.

Lemma hms_total (r : Z) :
  r / 3600 * 3600 + r mod 3600 / 60 * 60 + r mod 60 = r.
Proof.
  rewrite <- (Z.mod_mod_divide r 3600 60) by (now exists 60).
  pose proof (Z.div_mod r 3600). pose proof (Z.div_mod (r mod 3600) 60). lia.
Qed.

(** What the countdown shows can be read back: the three fields of the
    display HH:MM:SS of a positive time, written as the duration string
    HHhMMmSSs, parse to that same time. *)
Theorem display_parses_back (r : Z) :
  0 < r ->
  let hh := format_02d (r / 3600) in
  let mm := format_02d (r mod 3600 / 60) in
  let ss := format_02d (r mod 60) in
  time_str r = hh ++ ":" ++ mm ++ ":" ++ ss
  /\ parse_time (hh ++ "h" ++ mm ++ "m" ++ ss ++ "s") = Ok r.
Proof.
  intros Hr hh mm ss. split; [reflexivity|].
  assert (Hh : 0 <= r / 3600) by (apply Z.div_pos; lia).
  assert (Hm : 0 <= r mod 3600 / 60).
  { pose proof (Z.mod_pos_bound r 3600). apply Z.div_pos; lia. }
  assert (Hs : 0 <= r mod 60) by (apply Z.mod_pos_bound; lia).
  assert (Htotal : total (Some hh) (Some mm) (Some ss) = r).
  { unfold total, value, hh, mm, ss.
    destruct (format_02d_spec _ Hh) as (_ & -> & _).
    destruct (format_02d_spec _ Hm) as (_ & -> & _).
    destruct (format_02d_spec _ Hs) as (_ & -> & _).
    apply hms_total. }
  replace (Ok r) with (Ok (total (Some hh) (Some mm) (Some ss)))
    by (now rewrite Htotal).
  apply parse_time_duration_string; [|now rewrite Htotal].
  unfold duration_string, render, render_part. cbn [optional_number present].
  repeat split; try (apply number_format_02d; assumption).
  now rewrite !append_assoc.
Qed.

Lemma display_parses_back_witness :
  time_str 3725 = "01" ++ ":" ++ "02" ++ ":" ++ "05"
  /\ parse_time ("01" ++ "h" ++ "02" ++ "m" ++ "05" ++ "s") = Ok 3725.
Proof. apply (display_parses_back 3725). reflexivity. Defined.

Lemma append_newline_split (pre : string) (c : ascii) (post y : string) :
  pre ++ String c post = y ++ nl ->
  (post = "" /\ c = LF /\ pre = y)
  \/ exists post', post = post' ++ nl /\ y = pre ++ String c post'.
Proof.
  revert y. induction pre as [|e pre IH]; intros y H; cbn [append] in H.
  - destruct y as [|d y]; cbn in H.
    + injection H as -> ->. now left.
    + injection H as -> ->. right. now exists y.
  - destruct y as [|d y]; cbn in H.
    + injection H as _ H. destruct pre; discriminate H.
    + injection H as -> H. apply IH in H as [(-> & -> & ->)|(post' & -> & ->)].
      * now left.
      * right. now exists post'.
Qed.

Lemma duration_chars_inside (pre : string) (c : ascii) (post : string) :
  duration_chars (pre ++ String c post) = true -> duration_char c = true.
Proof.
  rewrite duration_chars_app. cbn [duration_chars]. unfold duration_char.
  intros H. apply andb_true_iff in H as [_ H].
  now apply andb_true_iff in H as [H _].
Qed.



(** The pattern alone also matches with nothing read, which is what the
    test on [match.group(0)] is for: [re.match] succeeds with an empty
    [group(0)] exactly on the empty string and on a lone newline. *)
Theorem empty_match_iff (x : string) :
  (exists mo, Regex.re_match Regex.time_regex x = Some mo
              /\ Regex.group0 mo = "")
  <-> x = "" \/ x = nl.
Proof.
  split.
  - intros (mo & Hm & H0). rewrite re_match_scan in Hm.
    apply scan_inv in Hm
      as (h & m & s & tail & Hh & Hm & Hs & -> & Ht & G0 & _).
    rewrite H0 in G0. rewrite <- G0. exact Ht.
  - intros [-> | ->]; eexists; split; reflexivity.
Qed.

End ParserProps.

(** ** More on [play_sound_macos] *)

Module NotifierProps.
Import TraceFacts NotifierFacts.

(** When every playback succeeds the notifier plays as many times as it was
    asked, neither more nor fewer, for every repeat count; asked for zero
    or a negative number of repeats it launches nothing and only prints its
    two messages. *)
Theorem all_repeats_play (E : oracle) (repeat_count : Z) :
  (forall i, (i < Z.to_nat repeat_count)%nat -> run_result E i = Completed) ->
  play_sound_macos E repeat_count
  = ((Print ("Playing sound '" ++ sound_file ++ "' " ++ Text.str repeat_count
             ++ " times.") nl
      :: plays (Z.to_nat repeat_count)
      ++ [Print "Finished playing sound." nl])%list, Return tt)
  /\ count_runs (fst (play_sound_macos E repeat_count)) = Z.to_nat repeat_count
  /\ (repeat_count <= 0 ->
      fst (play_sound_macos E repeat_count)
      = [Print ("Playing sound '" ++ sound_file ++ "' "
                ++ Text.str repeat_count ++ " times.") nl;
         Print "Finished playing sound." nl]).
Proof.
  intros Hok.
  assert (H : play_sound_macos E repeat_count
              = ((Print ("Playing sound '" ++ sound_file ++ "' "
                         ++ Text.str repeat_count ++ " times.") nl
                  :: plays (Z.to_nat repeat_count)
                  ++ [Print "Finished playing sound." nl])%list, Return tt)).
  { unfold play_sound_macos. now rewrite (play_loop_all_completed E _ Hok). }
  rewrite H. cbn [fst]. repeat split.
  - change (count_runs (plays (Z.to_nat repeat_count)
                        ++ [Print "Finished playing sound." nl])
            = Z.to_nat repeat_count).
    rewrite count_runs_app, count_runs_plays. cbn. lia.
  - intros Hn. now replace (Z.to_nat repeat_count) with 0%nat by lia.
Qed.

Lemma all_repeats_play_witness :
  play_sound_macos Examples.ideal 3
  = ((Print ("Playing sound '" ++ sound_file ++ "' " ++ Text.str 3
             ++ " times.") nl
      :: plays (Z.to_nat 3)
      ++ [Print "Finished playing sound." nl])%list, Return tt)
  /\ count_runs (fst (play_sound_macos Examples.ideal 3)) = Z.to_nat 3
  /\ (3 <= 0 ->
      fst (play_sound_macos Examples.ideal 3)
      = [Print ("Playing sound '" ++ sound_file ++ "' "
                ++ Text.str 3 ++ " times.") nl;
         Print "Finished playing sound." nl]).
Proof.
  apply (all_repeats_play Examples.ideal 3). intros i _. reflexivity.
Defined.

(** The notifier stops at the first playback that does not succeed,
    whatever went wrong with it (command missing, non-zero exit, interrupt,
    any other error): with playback number [k] (counted from 0) the first
    such, exactly [k + 1] launches are made. *)
Theorem nothing_after_first_failure (E : oracle) (k : nat) (repeat_count : Z) :
  (k < Z.to_nat repeat_count)%nat ->
  (forall j, (j < k)%nat -> run_result E j = Completed) ->
  run_result E k <> Completed ->
  count_runs (fst (play_sound_macos E repeat_count)) = S k.
Proof.
  intros Hk Hok Hfail.
  assert (Hloop : play_loop E 0 (Z.to_nat repeat_count)
                  = ((plays k
                      ++ fst (play_loop E k
                                (S (Z.to_nat repeat_count - S k))))%list,
                     snd (play_loop E k (S (Z.to_nat repeat_count - S k))))).
  { replace (Z.to_nat repeat_count)
      with (k + S (Z.to_nat repeat_count - S k))%nat at 1 by lia.
    now rewrite play_loop_prefix by (intros j Hj; apply Hok; lia). }
  assert (Hone : count_runs (fst (play_loop E k
                                    (S (Z.to_nat repeat_count - S k))))
                 = 1%nat).
  { cbn [play_loop].
    destruct (run_result E k) as [| |rc es [text|msg]| |es];
      [contradiction| | | | |]; reflexivity. }
  unfold play_sound_macos. rewrite Hloop.
  destruct (snd (play_loop E k (S (Z.to_nat repeat_count - S k))))
    as [[]|ex|]; cbn [fst].
  - change (count_runs ((plays k ++ fst (play_loop E k
                                           (S (Z.to_nat repeat_count - S k))))
                        ++ [Print "Finished playing sound." nl]) = S k).
    rewrite !count_runs_app, count_runs_plays, Hone. cbn. lia.
  - change (count_runs (plays k ++ fst (play_loop E k
                                          (S (Z.to_nat repeat_count - S k))))
            = S k).
    rewrite !count_runs_app, count_runs_plays, Hone. lia.
  - change (count_runs (plays k ++ fst (play_loop E k
                                          (S (Z.to_nat repeat_count - S k))))
            = S k).
    rewrite !count_runs_app, count_runs_plays, Hone. lia.
Qed.

Lemma nothing_after_first_failure_witness :
  count_runs (fst (play_sound_macos Examples.ctrl_c_while_playing 10)) = 4%nat.
Proof.
  apply (nothing_after_first_failure Examples.ctrl_c_while_playing 3 10).
  - vm_compute. lia.
  - intros [|[|[|j]]] Hj; try reflexivity. lia.
  - discriminate.
Defined.

End NotifierProps.


(** ** More on the script as a whole *)

Module ScriptProps.
Import TraceFacts CountdownFacts CountdownProps MainFacts NotifierFacts.

Lemma no_run_start (tr : list event) (argv : list string) :
  count_runs tr = 0%nat -> ~ In (RunStart argv) tr.
Proof.
  induction tr as [|e tr IH]; intros Hc Hin; [exact Hin|].
  destruct Hin as [-> | Hin]; [discriminate Hc|].
  destruct e; try (now apply IH); discriminate Hc.
Qed.

Lemma play_loop_argv E (todo : nat) (argv : list string) :
  forall i, In (RunStart argv) (fst (play_loop E i todo)) -> argv = afplay.
Proof.
  induction todo as [|todo IH]; intros i; [intros []|]. cbn [play_loop].
  assert (Hone : forall tl,
             (forall e, In e tl -> e <> RunStart argv) ->
             In (RunStart argv) (RunStart afplay :: RunEnd :: tl) ->
             argv = afplay).
  { intros tl Htl [H|[H|H]]; [now injection H | discriminate H|].
    now apply Htl in H. }
  destruct (run_result E i) as [| |rc es [text|msg]| |es]; cbn [fst].
  - specialize (IH (S i)). destruct (play_loop E (S i) todo) as [evs c].
    cbn [fst] in *. intros [H|[H|H]]; [now injection H | discriminate H | auto].
  - apply Hone. intros e [<-|[]]. discriminate.
  - apply Hone. intros e [<-|[<-|[]]]; discriminate.
  - apply Hone. intros e [<-|[]]. discriminate.
  - apply Hone. intros e [<-|[]]. discriminate.
  - apply Hone. intros e [<-|[]]. discriminate.
Qed.

Lemma play_sound_macos_argv E repeat_count (argv : list string) :
  In (RunStart argv) (fst (play_sound_macos E repeat_count)) -> argv = afplay.
Proof.
  unfold play_sound_macos.
  pose proof (play_loop_argv E (Z.to_nat repeat_count) argv 0) as H.
  destruct (play_loop E 0 _) as [evs c]. cbn [fst] in H.
  destruct c as [[]|ex|]; cbn [fst]; intros [Hin|Hin];
    try discriminate Hin; auto.
  apply in_app_or in Hin as [Hin|[Hin|[]]]; auto. discriminate Hin.
Qed.

(** The only command the script ever launches is [afplay] with the Ping
    sound file, whatever the duration string and the environment. *)
Theorem only_afplay_is_launched fuel E x (argv : list string) :
  In (RunStart argv) (fst (main fuel E x)) ->
  argv = ["afplay"; "/System/Library/Sounds/Ping.aiff"].
Proof.
  destruct (main fuel E x) as [tr e] eqn:Hmain. cbn [fst]. intros Hin.
  apply main_inv in Hmain
    as [(msg & Hp & -> & ->)
       |[(n & cev & cc & Hp & Hc & Hne & -> & ->)
        |(n & cev & pev & pc & Hp & Hc & Hpl & -> & ->)]].
  - destruct Hin as [H|[H|[]]]; discriminate H.
  - exfalso. revert Hin. apply no_run_start.
    destruct (except_clauses_quiet cc) as [_ Hr].
    pose proof (countdown_no_runs fuel E n) as Hcr. rewrite Hc in Hcr.
    cbn [fst] in Hcr. now rewrite count_runs_app, Hr, Hcr.
  - pose proof (countdown_no_runs fuel E n) as Hcr. rewrite Hc in Hcr.
    cbn [fst] in Hcr.
    destruct (except_clauses_quiet pc) as [_ Hr].
    apply in_app_or in Hin as [Hin|Hin];
      [|now apply no_run_start in Hin].
    apply in_app_or in Hin as [Hin|Hin];
      [now apply no_run_start in Hin|].
    apply (play_sound_macos_argv E 10). now rewrite Hpl.
Qed.

Lemma only_afplay_is_launched_witness :
  afplay = ["afplay"; "/System/Library/Sounds/Ping.aiff"].
Proof.
  apply (only_afplay_is_launched 2 Examples.ideal "1s" afplay).
  vm_compute. auto 20.
Defined.

Lemma countdown_loop_return fuel E end_time :
  forall now k evs u,
    countdown_loop fuel E end_time now k = (evs, Return u) -> In times_up evs.
Proof.
  induction fuel as [|fuel IH]; intros now k evs u H; [discriminate H|].
  rewrite countdown_loop_eq in H.
  destruct (_ <=? 0).
  { injection H as <- _. now left. }
  destruct (sleep_result E k) as [extra|]; [|discriminate H].
  destruct (countdown_loop fuel E end_time _ (S k)) as [evs' c] eqn:Hrec.
  injection H as <- ->. do 3 right. eapply IH; eauto.
Qed.

Lemma countdown_return fuel E n cev u :
  countdown fuel E n = (cev, Return u) -> In times_up cev.
Proof.
  unfold countdown.
  destruct (countdown_loop fuel E _ _ 0) as [evs c] eqn:Hl.
  destruct c as [u'|[]|]; intros H; try discriminate H.
  injection H as <- _. right. eapply countdown_loop_return; eauto.
Qed.

Lemma quiet_prefix (a b pre post : list event) (argv : list string) :
  count_runs a = 0%nat -> (a ++ b)%list = (pre ++ RunStart argv :: post)%list ->
  exists pre', pre = (a ++ pre')%list.
Proof.
  revert pre. induction a as [|e a IH]; intros pre Hc H; [now exists pre|].
  destruct pre as [|e' pre]; cbn [app] in H.
  - injection H as -> _. discriminate Hc.
  - injection H as -> H.
    assert (Hc' : count_runs a = 0%nat) by (destruct e'; try exact Hc; discriminate Hc).
    destruct (IH pre Hc' H) as (pre' & ->). now exists pre'.
Qed.

(** No playback is launched before the countdown has run to its end: in
    every run, whatever comes before a launch includes the line
    [Time's up!], and the duration string was accepted. *)
Theorem playback_only_after_times_up fuel E x pre argv post :
  fst (main fuel E x) = (pre ++ RunStart argv :: post)%list ->
  In times_up pre /\ exists n, parse_time x = Ok n /\ 0 < n.
Proof.
  destruct (main fuel E x) as [tr e] eqn:Hmain. cbn [fst]. intros Htr.
  assert (Hin : In (RunStart argv) tr).
  { rewrite Htr. apply in_or_app. right. now left. }
  apply main_inv in Hmain
    as [(msg & Hp & -> & ->)
       |[(n & cev & cc & Hp & Hc & Hne & -> & ->)
        |(n & cev & pev & pc & Hp & Hc & Hpl & -> & ->)]].
  - destruct Hin as [H|[H|[]]]; discriminate H.
  - exfalso. revert Hin. apply no_run_start.
    destruct (except_clauses_quiet cc) as [_ Hr].
    pose proof (countdown_no_runs fuel E n) as Hcr. rewrite Hc in Hcr.
    cbn [fst] in Hcr. now rewrite count_runs_app, Hr, Hcr.
  - pose proof (countdown_no_runs fuel E n) as Hcr. rewrite Hc in Hcr.
    cbn [fst] in Hcr. rewrite <- app_assoc in Htr.
    destruct (quiet_prefix _ _ _ _ _ Hcr Htr) as (pre' & ->).
    split.
    + apply in_or_app. left. eapply countdown_return; eauto.
    + exists n. split; auto. now apply (ParseFacts.parse_time_positive x).
Qed.

Lemma playback_only_after_times_up_witness :
  In times_up
     [Print "Timer set for 1 seconds." nl;
      Print "Time remaining: 00:00:01" cr; Flush; Sleep 1; times_up;
      Print "Playing sound '/System/Library/Sounds/Ping.aiff' 10 times." nl]
  /\ exists n, parse_time "1s" = Ok n /\ 0 < n.
Proof.
  apply (playback_only_after_times_up 2 Examples.not_macos "1s" _ afplay
           [RunEnd;
            Print "Error: 'afplay' command not found. Is this a macOS system?" nl;
            Print "Finished playing sound." nl]).
  reflexivity.
Defined.

Lemma countdown_loop_outcomes fuel E end_time :
  forall now k,
    snd (countdown_loop fuel E end_time now k) = Return tt
    \/ snd (countdown_loop fuel E end_time now k) = Raise ExKeyboardInterrupt
    \/ snd (countdown_loop fuel E end_time now k) = OutOfFuel.
Proof.
  induction fuel as [|fuel IH]; intros now k; [now right; right|].
  rewrite countdown_loop_eq.
  destruct (_ <=? 0); [now left|].
  destruct (sleep_result E k) as [extra|]; [|now right; left].
  specialize (IH (now + inject_Z (Z.min 1 (py_round (end_time - now)))
                  + extra)%Q (S k)).
  now destruct (countdown_loop fuel E end_time _ (S k)).
Qed.

(** [countdown] returns, or exits cleanly on an interrupt; the model may
    also run out of fuel, exactly when its loop does. *)
Lemma countdown_outcomes fuel E n :
  snd (countdown fuel E n) = Return tt
  \/ snd (countdown fuel E n) = Raise (ExSystemExit 0)
  \/ (snd (countdown fuel E n) = OutOfFuel
      /\ snd (countdown_loop fuel E (start_time E + inject_Z n)
                 (start_time E) 0) = OutOfFuel).
Proof.
  unfold countdown.
  destruct (countdown_loop_outcomes fuel E (start_time E + inject_Z n)%Q
              (start_time E) 0%nat) as [H|[H|H]];
    destruct (countdown_loop fuel E _ _ 0) as [evs c]; cbn [snd] in H;
    subst c; auto.
Qed.

Lemma play_sound_macos_outcomes E repeat_count :
  snd (play_sound_macos E repeat_count) = Return tt
  \/ snd (play_sound_macos E repeat_count) = Raise (ExSystemExit 0)
  \/ exists msg,
       snd (play_sound_macos E repeat_count) = Raise (ExUnicodeDecodeError msg).
Proof.
  unfold play_sound_macos.
  assert (H : forall todo i,
             snd (play_loop E i todo) = Return tt
             \/ snd (play_loop E i todo) = Raise (ExSystemExit 0)
             \/ exists msg,
                  snd (play_loop E i todo) = Raise (ExUnicodeDecodeError msg)).
  { induction todo as [|todo IH]; intros i; [now left|]. cbn [play_loop].
    destruct (run_result E i) as [| |rc es [text|msg]| |es]; auto.
    - specialize (IH (S i)). now destruct (play_loop E (S i) todo).
    - right. right. now exists msg. }
  specialize (H (Z.to_nat repeat_count) 0%nat).
  destruct (play_loop E 0 _) as [evs c]. cbn [snd] in H.
  destruct H as [-> | [-> | (msg & ->)]]; auto.
  right. right. now exists msg.
Qed.

(** The exit status in terms of the three steps of the script. *)
Lemma main_status fuel E x :
  snd (main fuel E x)
  = match parse_time x with
    | ValueError _ => Exit 1
    | Ok n =>
        match snd (countdown fuel E n) with
        | Return _ => snd (except_clauses (snd (play_sound_macos E 10)))
        | c => snd (except_clauses c)
        end
    end.
Proof.
  unfold main, main_body.
  destruct (parse_time x) as [n|msg]; [|reflexivity].
  destruct (countdown fuel E n) as [cev cc]. cbn [snd].
  destruct cc as [[]|ex|].
  - destruct (play_sound_macos E 10) as [pev pc]. cbn [snd].
    now destruct (except_clauses pc).
  - now destruct (except_clauses (Raise ex)).
  - reflexivity.
Qed.

Lemma main_status_cases fuel E x :
  snd (main fuel E x) = Exit 0 \/ snd (main fuel E x) = Exit 1
  \/ snd (main fuel E x) = Unfinished.
Proof.
  rewrite main_status.
  destruct (parse_time x) as [n|msg]; [|now right; left].
  destruct (countdown_outcomes fuel E n) as [Hc|[Hc|[Hc _]]]; rewrite Hc;
    [|now left|now right; right].
  destruct (play_sound_macos_outcomes E 10) as [Hp|[Hp|(msg & Hp)]];
    rewrite Hp; cbn [except_clauses snd]; auto.
Qed.






End ScriptProps.
